(** * Tour service: a shallow embedding of [backend/server.py]

    The service is a flat router over one MongoDB collection, [db.tours].
    This file embeds its pydantic models ([Tour], [TourCreate],
    [TourUpdate]), the collection operations the handlers call
    ([insert_one], [find], [find_one], [update_one], [delete_one]) and the
    five handlers, and then proves the service's contract about them.

    Modelling conventions.
    - A Python [dict] is a [gmap string _]; a document of the collection is
      a [gmap string value].
    - [uuid.uuid4()] and [datetime.utcnow()] read the outside world: the
      world carries the sequence of values they are going to return, and a
      call consumes the head of that sequence.
    - The collection is a list of documents in insertion (natural) order.
      A document is written in the store's encoding (BSON): an [int] must
      fit 64 bits, a [datetime] is kept in whole milliseconds. Any other
      reason for which the driver or the store refuses a document (its
      size, its depth, a key it cannot encode) is a parameter of the
      world, [store_refuses].
    - Text is a [string] of bytes (UTF-8). Regular expressions are
      interpreted here on printable ASCII only, for patterns and for
      subjects; on any other text the store's engine is a parameter of the
      world, [pcre_other]. *)

From Stdlib Require Import ZArith String Ascii Floats.
From stdpp Require Import gmap strings list fin_maps pretty.

(** ** Values *)

#[local] Set Warnings "-register-all".

(** A JSON value, as found below [package_details]: the service never
    looks inside one. *)
Inductive json :=
| JNull
| JBool (b : bool)
| JInt (z : Z)
| JFloat (f : float)
| JStr (s : string)
| JArr (items : list json)
| JObj (members : list (string * json)).

(** The Python values a model's [.dict()] holds and the collection stores:
    [None], [str], [int], [float], [dict], [datetime] (microseconds since
    the epoch). *)
Inductive value :=
| VNone
| VStr (s : string)
| VInt (z : Z)
| VFloat (f : float)
| VDict (d : list (string * json))
| VDatetime (t : Z).

Abbreviation doc := (gmap string value).

Definition is_None (v : value) : bool :=
  match v with VNone => true | _ => false end.

Definition as_VStr (v : value) : option string :=
  match v with VStr s => Some s | _ => None end.

Definition as_VInt (v : value) : option Z :=
  match v with VInt z => Some z | _ => None end.

Definition as_VFloat (v : value) : option float :=
  match v with VFloat f => Some f | _ => None end.

Definition as_VDict (v : value) : option (list (string * json)) :=
  match v with VDict d => Some d | _ => None end.

Definition as_VDatetime (v : value) : option Z :=
  match v with VDatetime t => Some t | _ => None end.

(** [Optional[T]] as a value: [None] or the wrapped [T]. *)
Definition opt_value {A} (wrap : A → value) (o : option A) : value :=
  match o with Some a => wrap a | None => VNone end.

(** ** The world: collection, uuid source, clock, regex engine, store *)

(** What can go wrong in a handler. [HTTPException] is raised by the
    handlers themselves; [RequestValidationError] is what the framework
    raises (and renders as 422) when a request body does not validate; the
    others are unhandled and surface as a 500. *)
Inductive exn :=
| HTTPException (status_code : Z) (detail : string)
| RequestValidationError
| ValidationError
| TypeError
| OverflowError
| OperationFailure.

Definition status_of (e : exn) : Z :=
  match e with
  | HTTPException c _ => c
  | RequestValidationError => 422
  | ValidationError | TypeError | OverflowError | OperationFailure => 500
  end.

Inductive result (A : Type) :=
| Ok (a : A)
| Raise (e : exn).
Arguments Ok {A} a.
Arguments Raise {A} e.

(** [pcre_other] is the store's caseless regular-expression engine, asked
    wherever this file does not interpret a pattern itself (see
    [regex_i]): [None] when the pattern does not compile, else the set of
    subjects it matches. [store_refuses] is the error, if any, with which
    the driver or the store refuses to write a document for a reason that
    this file does not model (see [to_store]). *)
Record world := World {
  tours : list doc;
  uuid_src : nat → string;
  clock : nat → Z;
  pcre_other : string → option (string → bool);
  store_refuses : doc → option exn
}.

Definition M (A : Type) : Type := world → result A * world.

Definition ret {A} (a : A) : M A := λ w, (Ok a, w).

Definition raise {A} (e : exn) : M A := λ w, (Raise e, w).

Definition bind {A B} (m : M A) (k : A → M B) : M B :=
  λ w, match m w with
       | (Ok a, w') => k a w'
       | (Raise e, w') => (Raise e, w')
       end.

Notation "'let*' x ':=' m 'in' k" := (bind m (λ x, k))
  (at level 10, x binder, m at level 100, k at level 200).

(** A list comprehension [[f(a) for a in l]] whose body has effects. *)
Fixpoint list_comp {A B} (f : A → M B) (l : list A) : M (list B) :=
  match l with
  | [] => ret []
  | a :: l' => let* b := f a in let* bs := list_comp f l' in ret (b :: bs)
  end.

(** [str(uuid.uuid4())] *)
Definition uuid4 : M string :=
  λ w, (Ok (uuid_src w 0),
        World (tours w) (λ n, uuid_src w (S n)) (clock w) (pcre_other w)
          (store_refuses w)).

(** [datetime.utcnow()] *)
Definition utcnow : M Z :=
  λ w, (Ok (clock w 0),
        World (tours w) (uuid_src w) (λ n, clock w (S n)) (pcre_other w)
          (store_refuses w)).

(** ** The pydantic models *)

(** Reading one keyword argument of a model constructor: the value when it
    is present and of the field's type, the field's default factory when it
    is absent, a validation error otherwise. (pydantic's coercions between
    types are not modelled: a value of another type is rejected. No document
    this service writes has one.) *)
Definition field {A} (rd : value → option A) (default : option (M A))
    (kw : doc) (k : string) : M A :=
  match kw !! k with
  | Some v => match rd v with Some a => ret a | None => raise ValidationError end
  | None => match default with Some f => f | None => raise ValidationError end
  end.

Module TourCreate.

Record t := mk {
  title : string;
  description : string;
  destination : string;
  duration : Z;
  price : float;
  max_capacity : Z;
  available_spots : Z;
  start_date : string;
  end_date : string;
  image_url : string;
  package_details : list (string * json)
}.

(** [tour_data.dict()] *)
Definition dict (x : t) : doc :=
  list_to_map
    [("title", VStr (title x));
     ("description", VStr (description x));
     ("destination", VStr (destination x));
     ("duration", VInt (duration x));
     ("price", VFloat (price x));
     ("max_capacity", VInt (max_capacity x));
     ("available_spots", VInt (available_spots x));
     ("start_date", VStr (start_date x));
     ("end_date", VStr (end_date x));
     ("image_url", VStr (image_url x));
     ("package_details", VDict (package_details x))].

End TourCreate.

Module TourUpdate.

Record t := mk {
  title : option string;
  description : option string;
  destination : option string;
  duration : option Z;
  price : option float;
  max_capacity : option Z;
  available_spots : option Z;
  start_date : option string;
  end_date : option string;
  image_url : option string;
  package_details : option (list (string * json))
}.

(** [tour_data.dict()]: every field is a key, an unset one maps to [None]. *)
Definition dict (x : t) : doc :=
  list_to_map
    [("title", opt_value VStr (title x));
     ("description", opt_value VStr (description x));
     ("destination", opt_value VStr (destination x));
     ("duration", opt_value VInt (duration x));
     ("price", opt_value VFloat (price x));
     ("max_capacity", opt_value VInt (max_capacity x));
     ("available_spots", opt_value VInt (available_spots x));
     ("start_date", opt_value VStr (start_date x));
     ("end_date", opt_value VStr (end_date x));
     ("image_url", opt_value VStr (image_url x));
     ("package_details", opt_value VDict (package_details x))].

End TourUpdate.

Module Tour.

Record t := mk {
  id : string;
  title : string;
  description : string;
  destination : string;
  duration : Z;
  price : float;
  max_capacity : Z;
  available_spots : Z;
  start_date : string;
  end_date : string;
  image_url : string;
  package_details : list (string * json);
  created_at : Z;
  updated_at : Z
}.

(** The constructor [Tour], called on keyword arguments [kw]: fields are read in declaration order; [id], [created_at]
    and [updated_at] fall back on their default factories, the others are
    required. Keys that are no field of the model are ignored. *)
Definition new (kw : doc) : M t :=
  let* id := field as_VStr (Some uuid4) kw "id" in
  let* title := field as_VStr None kw "title" in
  let* description := field as_VStr None kw "description" in
  let* destination := field as_VStr None kw "destination" in
  let* duration := field as_VInt None kw "duration" in
  let* price := field as_VFloat None kw "price" in
  let* max_capacity := field as_VInt None kw "max_capacity" in
  let* available_spots := field as_VInt None kw "available_spots" in
  let* start_date := field as_VStr None kw "start_date" in
  let* end_date := field as_VStr None kw "end_date" in
  let* image_url := field as_VStr None kw "image_url" in
  let* package_details := field as_VDict None kw "package_details" in
  let* created_at := field as_VDatetime (Some utcnow) kw "created_at" in
  let* updated_at := field as_VDatetime (Some utcnow) kw "updated_at" in
  ret (mk id title description destination duration price max_capacity
          available_spots start_date end_date image_url package_details
          created_at updated_at).

(** [tour_obj.dict()] *)
Definition dict (x : t) : doc :=
  list_to_map
    [("id", VStr (id x));
     ("title", VStr (title x));
     ("description", VStr (description x));
     ("destination", VStr (destination x));
     ("duration", VInt (duration x));
     ("price", VFloat (price x));
     ("max_capacity", VInt (max_capacity x));
     ("available_spots", VInt (available_spots x));
     ("start_date", VStr (start_date x));
     ("end_date", VStr (end_date x));
     ("image_url", VStr (image_url x));
     ("package_details", VDict (package_details x));
     ("created_at", VDatetime (created_at x));
     ("updated_at", VDatetime (updated_at x))].

End Tour.

Lemma tnew_dict (x : Tour.t) w : Tour.new (Tour.dict x) w = (Ok x, w).
Proof. destruct x. reflexivity. Qed.

(** ** The store's regular expressions *)

(** The part of the store's regular-expression language (PCRE) that is
    interpreted here: a pattern of printable ASCII that is a sequence of
    literal characters, dots, and backslash-escaped punctuation, matched
    against a subject of printable ASCII. Any other pattern, and any other
    subject, is left to [pcre_other]. *)
Inductive atom :=
| Lit (c : ascii)
| AnyChar.

Definition in_range (lo hi : N) (c : ascii) : bool :=
  ((lo <=? N_of_ascii c) && (N_of_ascii c <=? hi))%N.

Definition to_lower (c : ascii) : ascii :=
  if in_range 65 90 c then ascii_of_N (N_of_ascii c + 32) else c.

Definition printable (c : ascii) : bool := in_range 32 126 c.

Fixpoint printable_str (s : string) : bool :=
  match s with
  | EmptyString => true
  | String c s' => printable c && printable_str s'
  end.

Definition is_alnum (c : ascii) : bool :=
  in_range 48 57 c || in_range 65 90 c || in_range 97 122 c.

Definition backslash : ascii := "092"%char.

(** The characters with a meaning of their own in a pattern. *)
Definition metachars : list ascii :=
  backslash :: list_ascii_of_string "^$.[]|()?*+{}".

Definition is_meta (c : ascii) : bool := existsb (Ascii.eqb c) metachars.

Fixpoint parse_pattern (p : string) : option (list atom) :=
  match p with
  | EmptyString => Some []
  | String c p' =>
      if Ascii.eqb c backslash then
        match p' with
        | EmptyString => None
        | String e p'' =>
            if is_alnum e || negb (printable e) then None
            else cons (Lit e) <$> parse_pattern p''
        end
      else if Ascii.eqb c "." then cons AnyChar <$> parse_pattern p'
      else if is_meta c || negb (printable c) then None
      else cons (Lit c) <$> parse_pattern p'
  end.

(** Caseless matching of one atom against a printable ASCII character:
    case is that of the letters A-Z; a dot matches any character but a
    newline. *)
Definition atom_match (a : atom) (c : ascii) : bool :=
  match a with
  | Lit x => Ascii.eqb (to_lower x) (to_lower c)
  | AnyChar => negb (Ascii.eqb c "010")
  end.

Fixpoint match_here (p : list atom) (s : string) : bool :=
  match p, s with
  | [], _ => true
  | _ :: _, EmptyString => false
  | a :: p', String c s' => atom_match a c && match_here p' s'
  end.

(** An unanchored search: the pattern matches at some position. *)
Fixpoint re_search (p : list atom) (s : string) : bool :=
  match_here p s ||
  match s with
  | EmptyString => false
  | String _ s' => re_search p s'
  end.

(** [{"$regex": pattern, "$options": "i"}], compiled. An interpreted
    pattern is searched for here in a subject of printable ASCII; on any
    other subject, and for any other pattern, the answer is the engine's
    (an engine compiles every interpreted pattern; a world whose
    [pcre_other] does not is given no match on those subjects). *)
Definition interpreted (w : world) (pattern : string) (p : list atom)
    (s : string) : bool :=
  if printable_str s then re_search p s
  else match pcre_other w pattern with
       | Some m => m s
       | None => false
       end.

Definition regex_i (w : world) (pattern : string) : option (string → bool) :=
  match parse_pattern pattern with
  | Some p => Some (interpreted w pattern p)
  | None => pcre_other w pattern
  end.

(** ** Queries *)

(** The conditions the handlers put on a field: equality with a string,
    and a caseless regular expression. *)
Inductive cond :=
| EqStr (s : string)
| RegexI (pattern : string).

(** A query document is the conjunction of its entries: a condition on a
    field, or ["$or"] over a list of one-field conditions. *)
Inductive clause :=
| Field (k : string) (c : cond)
| Or (alts : list (string * cond)).

Definition compile_cond (w : world) (c : cond) : option (value → bool) :=
  match c with
  | EqStr s =>
      Some (λ v, match v with VStr s' => String.eqb s' s | _ => false end)
  | RegexI p =>
      m ← regex_i w p;
      Some (λ v, match v with VStr s => m s | _ => false end)
  end.

Definition compile_field (w : world) (kc : string * cond) : option (doc → bool) :=
  f ← compile_cond w kc.2;
  Some (λ d : doc, match d !! kc.1 with Some v => f v | None => false end).

Definition compile_clause (w : world) (cl : clause) : option (doc → bool) :=
  match cl with
  | Field k c => compile_field w (k, c)
  | Or alts =>
      fs ← mapM (compile_field w) alts;
      Some (λ d, existsb (λ f : doc → bool, f d) fs)
  end.

Definition compile_query (w : world) (q : list clause) : option (doc → bool) :=
  fs ← mapM (compile_clause w) q;
  Some (λ d, forallb (λ f : doc → bool, f d) fs).

(** The store rejects a query whose regular expression does not compile. *)
Definition matcher (q : list clause) : M (doc → bool) :=
  λ w, match compile_query w q with
       | Some f => (Ok f, w)
       | None => (Raise OperationFailure, w)
       end.

(** ** The collection [db.tours] *)

Definition set_tours (l : list doc) (w : world) : world :=
  World l (uuid_src w) (clock w) (pcre_other w) (store_refuses w).

(** The store's encoding of a document (BSON). An [int] is a 64-bit
    integer, also inside a nested dict, and encoding one that does not fit
    is an [OverflowError]; a [datetime] is a whole number of milliseconds,
    the microseconds being dropped. *)
Definition int64 (z : Z) : bool := ((- 2 ^ 63 <=? z) && (z <? 2 ^ 63))%Z.

Fixpoint json_fits (j : json) : bool :=
  match j with
  | JInt z => int64 z
  | JArr items => forallb json_fits items
  | JObj members => forallb (λ kv, json_fits kv.2) members
  | _ => true
  end.

Definition value_fits (v : value) : bool :=
  match v with
  | VInt z => int64 z
  | VDict d => forallb (λ kv, json_fits kv.2) d
  | _ => true
  end.

Definition millis (t : Z) : Z := (t / 1000 * 1000)%Z.

Definition bson_value (v : value) : value :=
  match v with
  | VDatetime t => VDatetime (millis t)
  | _ => v
  end.

Definition doc_fits (d : doc) : bool :=
  forallb (λ kv, value_fits kv.2) (map_to_list d).

Definition bson_encode (d : doc) : option doc :=
  if doc_fits d then Some (bson_value <$> d) else None.

(** Handing a document to the store: the document as the store keeps it,
    or the error with which the write fails. *)
Definition to_store (d : doc) : M doc :=
  λ w, match store_refuses w d with
       | Some e => (Raise e, w)
       | None =>
           match bson_encode d with
           | Some d' => (Ok d', w)
           | None => (Raise OverflowError, w)
           end
       end.

(** [insert_one(d)] *)
Definition insert_one (d : doc) : M unit :=
  let* d' := to_store d in
  λ w, (Ok tt, set_tours (tours w ++ [d']) w).

(** [find(q).to_list(length)] *)
Definition find (q : list clause) (length : nat) : M (list doc) :=
  let* f := matcher q in
  λ w, (Ok (take length (List.filter f (tours w))), w).

(** [find_one(q)]: the first match in natural order, or [None]. *)
Definition find_one (q : list clause) : M (option doc) :=
  let* f := matcher q in
  λ w, (Ok (List.find f (tours w)), w).

(** ["$set"] on the first match: the keys of [upd] are written over the
    document's. *)
Fixpoint set_first (f : doc → bool) (upd : doc) (l : list doc) : list doc :=
  match l with
  | [] => []
  | d :: l' => if f d then (upd ∪ d) :: l' else d :: set_first f upd l'
  end.

(** [update_one(q, {"$set": upd})] *)
Definition update_one (q : list clause) (upd : doc) : M unit :=
  let* f := matcher q in
  let* upd' := to_store upd in
  λ w, (Ok tt, set_tours (set_first f upd' (tours w)) w).

Fixpoint delete_first (f : doc → bool) (l : list doc) : list doc :=
  match l with
  | [] => []
  | d :: l' => if f d then l' else d :: delete_first f l'
  end.

(** [delete_one(q)], returning [result.deleted_count]. *)
Definition delete_one (q : list clause) : M Z :=
  let* f := matcher q in
  λ w, (Ok (if existsb f (tours w) then 1 else 0)%Z,
        set_tours (delete_first f (tours w)) w).

(** ** Python truth values *)

(** [if s:] for an [Optional[str]]: [None] and the empty string are false. *)
Definition truthy_str (s : option string) : bool :=
  match s with
  | Some s => negb (String.eqb s EmptyString)
  | None => false
  end.

(** [if not d:] for the result of [find_one]: [None] and the empty dict. *)
Definition falsy_doc (d : option doc) : bool :=
  match d with
  | Some d => Nat.eqb (size d) 0
  | None => true
  end.

(** ** The handlers *)

(** POST /tours *)
Definition create_tour (tour_data : TourCreate.t) : M Tour.t :=
  let tour_dict := TourCreate.dict tour_data in
  let* tour_obj := Tour.new tour_dict in
  let* _ := insert_one (Tour.dict tour_obj) in
  ret tour_obj.

(** GET /tours *)
Definition get_tours (search destination : option string) : M (list Tour.t) :=
  let query : list clause := [] in
  let query :=
    if truthy_str search
    then query ++ [Or [("title", RegexI (default EmptyString search));
                       ("description", RegexI (default EmptyString search));
                       ("destination", RegexI (default EmptyString search))]]
    else query in
  let query :=
    if truthy_str destination
    then query ++ [Field "destination" (RegexI (default EmptyString destination))]
    else query in
  let* tours := find query 1000 in
  list_comp Tour.new tours.

(** The constructor [Tour] called on the result of [find_one]; unpacking [None] is a
    [TypeError]. *)
Definition Tour_of (tour : option doc) : M Tour.t :=
  match tour with
  | Some d => Tour.new d
  | None => raise TypeError
  end.

(** GET /tours/{tour_id} *)
Definition get_tour (tour_id : string) : M Tour.t :=
  let* tour := find_one [Field "id" (EqStr tour_id)] in
  if falsy_doc tour then raise (HTTPException 404 "Tour not found") else
  Tour_of tour.

(** PUT /tours/{tour_id} *)
Definition update_tour (tour_id : string) (tour_data : TourUpdate.t) : M Tour.t :=
  let* tour := find_one [Field "id" (EqStr tour_id)] in
  if falsy_doc tour then raise (HTTPException 404 "Tour not found") else
  let update_data : doc :=
    filter (λ kv : string * value, is_None kv.2 = false)
           (TourUpdate.dict tour_data) in
  let* now := utcnow in
  let update_data := <["updated_at" := VDatetime now]> update_data in
  let* _ := update_one [Field "id" (EqStr tour_id)] update_data in
  let* updated_tour := find_one [Field "id" (EqStr tour_id)] in
  Tour_of updated_tour.

(** DELETE /tours/{tour_id} *)
Definition delete_tour (tour_id : string) : M (gmap string string) :=
  let* deleted_count := delete_one [Field "id" (EqStr tour_id)] in
  if (deleted_count =? 0)%Z
  then raise (HTTPException 404 "Tour not found")
  else ret {["message" := "Tour deleted successfully"]}.

(** ** Request bodies *)

(** The framework validates a JSON body against the handler's model before
    it calls the handler, and answers 422 when validation fails. The
    validators of the four field types are pydantic's; they are parameters
    here. What the models themselves say is kept: every field of
    [TourCreate] is required, every field of [TourUpdate] is optional with
    default [None], and a key that is no field of the model is ignored. *)
Section Requests.

Variable str_validator : json → option string.
Variable int_validator : json → option Z.
Variable float_validator : json → option float.
Variable dict_validator : json → option (list (string * json)).

(** A field [k: T]. *)
Definition required {A} (v : json → option A) (body : gmap string json)
    (k : string) : option A :=
  body !! k ≫= v.

(** A field [k: Optional[T] = None]. *)
Definition optional {A} (v : json → option A) (body : gmap string json)
    (k : string) : option (option A) :=
  match body !! k with
  | None => Some None
  | Some JNull => Some None
  | Some j => Some <$> v j
  end.

Definition TourCreate_parse (body : gmap string json) : option TourCreate.t :=
  title ← required str_validator body "title";
  description ← required str_validator body "description";
  destination ← required str_validator body "destination";
  duration ← required int_validator body "duration";
  price ← required float_validator body "price";
  max_capacity ← required int_validator body "max_capacity";
  available_spots ← required int_validator body "available_spots";
  start_date ← required str_validator body "start_date";
  end_date ← required str_validator body "end_date";
  image_url ← required str_validator body "image_url";
  package_details ← required dict_validator body "package_details";
  Some (TourCreate.mk title description destination duration price
          max_capacity available_spots start_date end_date image_url
          package_details).

Definition TourUpdate_parse (body : gmap string json) : option TourUpdate.t :=
  title ← optional str_validator body "title";
  description ← optional str_validator body "description";
  destination ← optional str_validator body "destination";
  duration ← optional int_validator body "duration";
  price ← optional float_validator body "price";
  max_capacity ← optional int_validator body "max_capacity";
  available_spots ← optional int_validator body "available_spots";
  start_date ← optional str_validator body "start_date";
  end_date ← optional str_validator body "end_date";
  image_url ← optional str_validator body "image_url";
  package_details ← optional dict_validator body "package_details";
  Some (TourUpdate.mk title description destination duration price
          max_capacity available_spots start_date end_date image_url
          package_details).

(** The route [POST /tours] with body [body]. *)
Definition post_tours (body : gmap string json) : M Tour.t :=
  match TourCreate_parse body with
  | Some tour_data => create_tour tour_data
  | None => raise RequestValidationError
  end.

(** The route [PUT /tours/{tour_id}] with body [body]. *)
Definition put_tour (tour_id : string) (body : gmap string json) : M Tour.t :=
  match TourUpdate_parse body with
  | Some tour_data => update_tour tour_id tour_data
  | None => raise RequestValidationError
  end.

End Requests.

(** Validators that accept exactly the JSON values of the field's own
    type; they serve as a concrete instance of the parameters above. *)
Definition exact_str (j : json) : option string :=
  match j with JStr s => Some s | _ => None end.

Definition exact_int (j : json) : option Z :=
  match j with JInt z => Some z | _ => None end.

Definition exact_float (j : json) : option float :=
  match j with JFloat f => Some f | _ => None end.

Definition exact_dict (j : json) : option (list (string * json)) :=
  match j with JObj o => Some o | _ => None end.

(** * Specification vocabulary *)

(** The collection holds exactly the Tours [ts], in this order. *)
Definition stores (w : world) (ts : list Tour.t) : Prop :=
  tours w = Tour.dict <$> ts.

Definition ids (ts : list Tour.t) : list string := Tour.id <$> ts.

(** The input fields of a Tour: everything but [id] and the timestamps. *)
Definition input_of (x : Tour.t) : TourCreate.t :=
  TourCreate.mk (Tour.title x) (Tour.description x) (Tour.destination x)
    (Tour.duration x) (Tour.price x) (Tour.max_capacity x)
    (Tour.available_spots x) (Tour.start_date x) (Tour.end_date x)
    (Tour.image_url x) (Tour.package_details x).

(** A partial update as the specification words it: a supplied field takes
    the supplied value, an omitted one keeps its prior value, [id] and
    [created_at] are kept, [updated_at] becomes the current time. *)
Definition patched (u : TourUpdate.t) (now : Z) (x : Tour.t) : Tour.t :=
  Tour.mk (Tour.id x)
    (default (Tour.title x) (TourUpdate.title u))
    (default (Tour.description x) (TourUpdate.description u))
    (default (Tour.destination x) (TourUpdate.destination u))
    (default (Tour.duration x) (TourUpdate.duration u))
    (default (Tour.price x) (TourUpdate.price u))
    (default (Tour.max_capacity x) (TourUpdate.max_capacity u))
    (default (Tour.available_spots x) (TourUpdate.available_spots u))
    (default (Tour.start_date x) (TourUpdate.start_date u))
    (default (Tour.end_date x) (TourUpdate.end_date u))
    (default (Tour.image_url x) (TourUpdate.image_url u))
    (default (Tour.package_details x) (TourUpdate.package_details u))
    (Tour.created_at x)
    now.

(** Case-insensitive substring, as the specification words it: [x], with
    case folded, occurs somewhere in [s], with case folded. The fold is
    that of ASCII, and the theorems use it on printable ASCII text only. *)
Fixpoint lower (s : string) : string :=
  match s with
  | EmptyString => EmptyString
  | String c s' => String (to_lower c) (lower s')
  end.

Definition contains_ci (x s : string) : Prop :=
  ∃ pre post, lower s = String.append pre (String.append (lower x) post).

Definition mentions (x : string) (t : Tour.t) : Prop :=
  contains_ci x (Tour.title t) ∨
  contains_ci x (Tour.description t) ∨
  contains_ci x (Tour.destination t).

(** A search string of printable ASCII without regular-expression
    metacharacters. *)
Definition plain (x : string) : Prop :=
  forallb (λ c, printable c && negb (is_meta c)) (list_ascii_of_string x) = true.

(** A request body misses field [k], or holds a value there that the
    field's validator refuses. *)
Definition rejects {A} (v : json → option A) (body : gmap string json)
    (k : string) : Prop :=
  body !! k = None ∨ ∃ j, body !! k = Some j ∧ v j = None.

Definition TourCreate_keys : list string :=
  ["title"; "description"; "destination"; "duration"; "price"; "max_capacity";
   "available_spots"; "start_date"; "end_date"; "image_url"; "package_details"].

Definition Tour_keys : list string :=
  ["id"; "title"; "description"; "destination"; "duration"; "price";
   "max_capacity"; "available_spots"; "start_date"; "end_date"; "image_url";
   "package_details"; "created_at"; "updated_at"].

(** ** What the store keeps *)

(** The record [Create] builds from its input, an id and two clock
    readings. *)
Definition new_tour (uid : string) (tour_data : TourCreate.t) (t1 t2 : Z)
    : Tour.t :=
  Tour.mk uid (TourCreate.title tour_data) (TourCreate.description tour_data)
    (TourCreate.destination tour_data) (TourCreate.duration tour_data)
    (TourCreate.price tour_data) (TourCreate.max_capacity tour_data)
    (TourCreate.available_spots tour_data) (TourCreate.start_date tour_data)
    (TourCreate.end_date tour_data) (TourCreate.image_url tour_data)
    (TourCreate.package_details tour_data) t1 t2.

(** A Tour as the store keeps it: its timestamps in whole milliseconds. *)
Definition as_stored (x : Tour.t) : Tour.t :=
  Tour.mk (Tour.id x) (Tour.title x) (Tour.description x)
    (Tour.destination x) (Tour.duration x) (Tour.price x)
    (Tour.max_capacity x) (Tour.available_spots x) (Tour.start_date x)
    (Tour.end_date x) (Tour.image_url x) (Tour.package_details x)
    (millis (Tour.created_at x)) (millis (Tour.updated_at x)).

(** The integers of a create input, also those inside [package_details],
    fit 64 bits. *)
Definition input_fits (tour_data : TourCreate.t) : bool :=
  int64 (TourCreate.duration tour_data) &&
  int64 (TourCreate.max_capacity tour_data) &&
  int64 (TourCreate.available_spots tour_data) &&
  forallb (λ kv, json_fits kv.2) (TourCreate.package_details tour_data).

(** The same for the integers an update payload supplies. *)
Definition update_fits (u : TourUpdate.t) : bool :=
  from_option int64 true (TourUpdate.duration u) &&
  from_option int64 true (TourUpdate.max_capacity u) &&
  from_option int64 true (TourUpdate.available_spots u) &&
  from_option (forallb (λ kv, json_fits kv.2)) true
    (TourUpdate.package_details u).

(** The operand of ["$set"] that [update_tour] builds from a payload and a
    clock reading. *)
Definition update_doc (u : TourUpdate.t) (now : Z) : doc :=
  <["updated_at" := VDatetime now]>
    (filter (λ kv : string * value, is_None kv.2 = false) (TourUpdate.dict u)).

(** The three text fields of a Tour are printable ASCII. *)
Definition printable_fields (x : Tour.t) : bool :=
  printable_str (Tour.title x) && printable_str (Tour.description x) &&
  printable_str (Tour.destination x).

(** ** What the queries compute *)

(** The filter [{"id": tid}] on a document, and on a Tour. *)
Definition by_id (tid : string) (d : doc) : bool :=
  match d !! "id" with
  | Some (VStr s) => String.eqb s tid
  | _ => false
  end.

Definition has_id (tid : string) (x : Tour.t) : bool :=
  String.eqb (Tour.id x) tid.

(** The two filters of [get_tours] on a Tour, for a compiled pattern [m]. *)
Definition hit_any (m : string → bool) (x : Tour.t) : bool :=
  m (Tour.title x) || m (Tour.description x) || m (Tour.destination x).

Definition hit_destination (m : string → bool) (x : Tour.t) : bool :=
  m (Tour.destination x).

(** The Tours a call of [get_tours] selects; [None] when a pattern does
    not compile. *)
Definition selector (w : world) (search destination : option string)
    : option (Tour.t → bool) :=
  f ← (if truthy_str search
       then hit_any <$> regex_i w (default EmptyString search)
       else Some (λ _, true));
  g ← (if truthy_str destination
       then hit_destination <$> regex_i w (default EmptyString destination)
       else Some (λ _, true));
  Some (λ x, f x && g x).

(** The pattern that spells [x] out literally. *)
Fixpoint lits (x : string) : list atom :=
  match x with
  | EmptyString => []
  | String c x' => Lit c :: lits x'
  end.

(** ** Sample data *)

(** A small agency: one Tour in the collection, and a clock that reads
    microseconds. *)
Definition bali : Tour.t :=
  Tour.mk "t1" "Bali Trip" "Beach" "Indonesia" 7 1299 20 15 "2025-01-01"
    "2025-01-08" "bali.jpg" [("transportation", JStr "Flight")] 100000 100000.

Definition agency : world :=
  World [Tour.dict bali] (λ n, pretty n) (λ n, Z.of_nat n + 200123)%Z
    (λ _, None) (λ _, None).

Definition price_only : TourUpdate.t :=
  TourUpdate.mk None None None None (Some 1399%float) None None None None None
    None.

Definition null_title_body : gmap string json :=
  list_to_map [("title", JNull); ("price", JFloat 1399); ("id", JStr "hack")].

Definition untitled_body : gmap string json :=
  list_to_map [("description", JStr "Beach"); ("price", JFloat 1299)].

(** A crowded agency: a thousand Tours, and one more created after them. *)
Definition sample (id title destination : string) : Tour.t :=
  Tour.mk id title "d" destination 7 1299 20 15 "2025-01-01" "2025-01-08"
    "img" [] 0 0.

Definition crowd : list Tour.t :=
  (λ n, sample (pretty n) "a" "x") <$> seq 0 1000.

Definition late : Tour.t := sample "late" "a" "b".

Definition crowded : world :=
  World (Tour.dict <$> (crowd ++ [late])) (λ n, pretty (1001 + n))
    (λ _, 0%Z) (λ _, None) (λ _, None).

(** ** Further vocabulary *)

(** GET / *)
Definition root : M (gmap string string) :=
  ret {["message" := "Travel Agency Management API"]}.

(** A computation that leaves the collection as it found it. *)
Definition keeps_tours {A} (m : M A) : Prop :=
  ∀ w, tours (m w).2 = tours w.

(** A request to one of the five tour handlers, and the world after the
    service has served it, whatever it answered. *)
Inductive request :=
| ReqCreate (tour_data : TourCreate.t)
| ReqList (search destination : option string)
| ReqGet (tour_id : string)
| ReqUpdate (tour_id : string) (tour_data : TourUpdate.t)
| ReqDelete (tour_id : string).

Definition serve (r : request) (w : world) : world :=
  match r with
  | ReqCreate tour_data => (create_tour tour_data w).2
  | ReqList search destination => (get_tours search destination w).2
  | ReqGet tour_id => (get_tour tour_id w).2
  | ReqUpdate tour_id tour_data => (update_tour tour_id tour_data w).2
  | ReqDelete tour_id => (delete_tour tour_id w).2
  end.

Definition serve_all (rs : list request) (w : world) : world :=
  foldl (λ w r, serve r w) w rs.

(** The uuid source never returns the same value twice. *)
Definition never_repeats (w : world) : Prop :=
  ∀ m n, uuid_src w m = uuid_src w n → m = n.

(** The collection holds Tours with pairwise distinct ids, none of which
    the uuid source is going to return. *)
Definition sound (w : world) : Prop :=
  ∃ ts, stores w ts ∧ NoDup (ids ts) ∧ ∀ n, uuid_src w n ∉ ids ts.

(** The world after [Create] has drawn its id and read the clock twice. *)
Definition drawn (w : world) : world :=
  World (tours w) (λ n, uuid_src w (S n)) (λ n, clock w (S (S n)))
    (pcre_other w) (store_refuses w).

(** A create input with a duration beyond 64 bits, and an update payload
    with one. *)
Definition endless : TourCreate.t :=
  TourCreate.mk "Endless" "d" "x" (2 ^ 63) 1 20 15 "2025-01-01" "2025-01-08"
    "img" [].

Definition endless_update : TourUpdate.t :=
  TourUpdate.mk None None None (Some (2 ^ 63)%Z) None None None None None None
    None.

(** The world after [datetime.utcnow()] has been read once. *)
Definition tick (w : world) : world :=
  World (tours w) (uuid_src w) (λ n, clock w (S n)) (pcre_other w)
    (store_refuses w).

(** A world with nothing stored yet, whose uuid source counts. *)
Definition opening : world :=
  World [] (λ n, pretty n) (λ n, Z.of_nat n) (λ _, None) (λ _, None).

(** A complete create body that also carries keys of its own. *)
Definition bali_body : gmap string json :=
  list_to_map
    [("title", JStr "Bali Trip"); ("description", JStr "Beach");
     ("destination", JStr "Indonesia"); ("duration", JInt 7);
     ("price", JFloat 1299); ("max_capacity", JInt 20);
     ("available_spots", JInt 15); ("start_date", JStr "2025-01-01");
     ("end_date", JStr "2025-01-08"); ("image_url", JStr "bali.jpg");
     ("package_details", JObj []); ("id", JStr "hack");
     ("created_at", JStr "1970-01-01")].

(** * Lemmas *)

(** ** Running the monad *)

Lemma bind_ok {A B} (m : M A) (k : A → M B) w a w' :
  m w = (Ok a, w') → bind m k w = k a w'.
Proof. unfold bind. by intros ->. Qed.

Lemma bind_raise {A B} (m : M A) (k : A → M B) w e w' :
  m w = (Raise e, w') → bind m k w = (Raise e, w').
Proof. unfold bind. by intros ->. Qed.

Lemma set_tours_id w : set_tours (tours w) w = w.
Proof. by destruct w. Qed.

Lemma list_comp_new (l : list Tour.t) w :
  list_comp Tour.new (Tour.dict <$> l) w = (Ok l, w).
Proof.
  induction l as [|x l IH]; [done|].
  cbn [fmap list_fmap list_comp].
  rewrite (bind_ok _ _ _ _ _ (tnew_dict x w)).
  by rewrite (bind_ok _ _ _ _ _ IH).
Qed.

(** ** Documents of Tours *)

Lemma Tour_dict_other (x : Tour.t) k : k ∉ Tour_keys → Tour.dict x !! k = None.
Proof. intros Hk. by apply not_elem_of_list_to_map_1. Qed.

Lemma TourUpdate_dict_other (u : TourUpdate.t) k :
  k ∉ Tour_keys → TourUpdate.dict u !! k = None.
Proof.
  intros Hk. apply not_elem_of_list_to_map_1. intros Hin. apply Hk. clear Hk.
  cbn in Hin. unfold Tour_keys.
  repeat (apply elem_of_cons in Hin as [->|Hin]; [by repeat constructor|]).
  by apply elem_of_nil in Hin.
Qed.

Lemma falsy_doc_dict (x : Tour.t) : falsy_doc (Some (Tour.dict x)) = false.
Proof. destruct x. reflexivity. Qed.

(** What ["$set"] leaves under a key. *)
Lemma lookup_set (upd d : doc) (now : Z) k :
  (<["updated_at" := VDatetime now]>
     (filter (λ kv : string * value, is_None kv.2 = false) upd) ∪ d) !! k =
  if decide (k = "updated_at") then Some (VDatetime now)
  else match upd !! k with
       | Some v => if is_None v then d !! k else Some v
       | None => d !! k
       end.
Proof.
  rewrite lookup_union. case_decide as Hk.
  - subst k. rewrite lookup_insert_eq. by destruct (d !! "updated_at").
  - rewrite lookup_insert_ne by done. rewrite map_lookup_filter.
    destruct (upd !! k) as [v|] eqn:Hv; cbn.
    + destruct (is_None v) eqn:Hn.
      * rewrite option_guard_False by (cbn; congruence). cbn.
        by rewrite (left_id_L None _).
      * rewrite option_guard_True by done. cbn. by destruct (d !! k).
    + by rewrite (left_id_L None _).
Qed.

(** ["$set"] with the update data of [u] turns the document of [x] into
    the document of [patched u now x]. *)
Lemma set_dict (u : TourUpdate.t) (now : Z) (x : Tour.t) :
  <["updated_at" := VDatetime now]>
    (filter (λ kv : string * value, is_None kv.2 = false) (TourUpdate.dict u))
  ∪ Tour.dict x = Tour.dict (patched u now x).
Proof.
  apply map_eq. intros k. rewrite lookup_set.
  destruct (decide (k ∈ Tour_keys)) as [Hin|Hout].
  - unfold Tour_keys in Hin. destruct u, x.
    repeat (apply elem_of_cons in Hin as [->|Hin];
      [first [reflexivity
             | match goal with
               | o : option _ |- _ => destruct o; reflexivity
               end]|]).
    by apply elem_of_nil in Hin.
  - rewrite decide_False by (intros ->; apply Hout; by repeat constructor).
    by rewrite TourUpdate_dict_other, !Tour_dict_other.
Qed.

(** ** The store's encoding *)

Lemma doc_fits_spec (d : doc) :
  doc_fits d = true ↔ ∀ k v, d !! k = Some v → value_fits v = true.
Proof.
  unfold doc_fits. rewrite forallb_forall. split.
  - intros H k v Hk. apply (H (k, v)).
    by apply list_elem_of_In, elem_of_map_to_list.
  - intros H [k v] Hin. apply list_elem_of_In, elem_of_map_to_list in Hin.
    by apply (H k v).
Qed.

Lemma dict_fits (x : Tour.t) : doc_fits (Tour.dict x) = input_fits (input_of x).
Proof.
  apply eq_true_iff_eq. rewrite doc_fits_spec. unfold input_fits.
  rewrite !andb_true_iff. destruct x. cbn [input_of TourCreate.duration
    TourCreate.max_capacity TourCreate.available_spots
    TourCreate.package_details]. split.
  - intros H. repeat split.
    + by apply (H "duration" (VInt _)).
    + by apply (H "max_capacity" (VInt _)).
    + by apply (H "available_spots" (VInt _)).
    + by apply (H "package_details" (VDict _)).
  - intros [[[H1 H2] H3] H4] k v Hk.
    apply elem_of_list_to_map_2 in Hk.
    repeat (apply elem_of_cons in Hk as [[= -> ->]|Hk]; [done|]).
    by apply elem_of_nil in Hk.
Qed.

Lemma dict_stored (x : Tour.t) : bson_value <$> Tour.dict x = Tour.dict (as_stored x).
Proof. by destruct x. Qed.

Lemma encode_dict (x : Tour.t) :
  bson_encode (Tour.dict x) =
  if input_fits (input_of x) then Some (Tour.dict (as_stored x)) else None.
Proof. unfold bson_encode. by rewrite dict_fits, dict_stored. Qed.

Lemma update_dict_values (u : TourUpdate.t) k v :
  TourUpdate.dict u !! k = Some v →
  bson_value v = v ∧ (update_fits u = true → value_fits v = true).
Proof.
  intros Hk. apply elem_of_list_to_map_2 in Hk. destruct u.
  unfold update_fits.
  cbn [TourUpdate.duration TourUpdate.max_capacity TourUpdate.available_spots
       TourUpdate.package_details].
  repeat (apply elem_of_cons in Hk as [[= -> ->]|Hk];
    [match goal with
     | |- context [opt_value _ ?o] => destruct o
     end; (split; [done|]); rewrite !andb_true_iff; cbn; tauto|]).
  by apply elem_of_nil in Hk.
Qed.

Lemma update_doc_lookup (u : TourUpdate.t) now k :
  update_doc u now !! k =
  if decide (k = "updated_at") then Some (VDatetime now)
  else match TourUpdate.dict u !! k with
       | Some v => if is_None v then None else Some v
       | None => None
       end.
Proof.
  unfold update_doc. case_decide as Hk.
  - subst k. by rewrite lookup_insert_eq.
  - rewrite lookup_insert_ne by done. rewrite map_lookup_filter.
    destruct (TourUpdate.dict u !! k) as [v|]; cbn; [|done].
    destruct (is_None v) eqn:Hn.
    + by rewrite option_guard_False by (cbn; congruence).
    + by rewrite option_guard_True.
Qed.

Lemma update_doc_fits (u : TourUpdate.t) now :
  doc_fits (update_doc u now) = update_fits u.
Proof.
  apply eq_true_iff_eq. rewrite doc_fits_spec. split.
  - intros H. unfold update_fits. rewrite !andb_true_iff.
    assert (Hk : ∀ k v, k ≠ "updated_at"%string → is_None v = false →
      TourUpdate.dict u !! k = Some v → value_fits v = true).
    { intros k v Hne Hn Hv. apply (H k). rewrite update_doc_lookup.
      by rewrite decide_False, Hv, Hn. }
    destruct u as [? ? ? [z1|] ? [z2|] [z3|] ? ? ? [pd|]]; cbn;
      repeat split;
      first [ by apply (Hk "duration" (VInt _))
            | by apply (Hk "max_capacity" (VInt _))
            | by apply (Hk "available_spots" (VInt _))
            | by apply (Hk "package_details" (VDict _)) ].
  - intros Hf k v. rewrite update_doc_lookup. case_decide.
    + by intros [= <-].
    + destruct (TourUpdate.dict u !! k) as [v'|] eqn:E; [|done].
      destruct (is_None v'); [done|]. intros [= <-].
      by apply (update_dict_values u k v' E).
Qed.

Lemma update_doc_stored (u : TourUpdate.t) now :
  bson_value <$> update_doc u now = update_doc u (millis now).
Proof.
  apply map_eq. intros k. rewrite lookup_fmap, !update_doc_lookup.
  case_decide; [done|].
  destruct (TourUpdate.dict u !! k) as [v|] eqn:E; [|done].
  destruct (is_None v); [done|]. cbn. f_equal.
  by apply (update_dict_values u k v E).
Qed.

Lemma encode_update_doc (u : TourUpdate.t) now :
  bson_encode (update_doc u now) =
  if update_fits u then Some (update_doc u (millis now)) else None.
Proof. unfold bson_encode. by rewrite update_doc_fits, update_doc_stored. Qed.

(** ** Looking a Tour up by id *)

Lemma by_id_dict tid (x : Tour.t) : by_id tid (Tour.dict x) = has_id tid x.
Proof. by destruct x. Qed.

Lemma matcher_id tid w :
  ∃ f, matcher [Field "id" (EqStr tid)] w = (Ok f, w) ∧ ∀ d, f d = by_id tid d.
Proof.
  eexists. split; [reflexivity|]. intros d. cbn. unfold by_id.
  rewrite andb_true_r. by destruct (d !! "id") as [[]|].
Qed.

Lemma find_pointwise {A} (f g : A → bool) l :
  (∀ a, f a = g a) → List.find f l = List.find g l.
Proof. intros E. induction l as [|a l IH]; [done|]. cbn. by rewrite E, IH. Qed.

Lemma set_first_pointwise (f g : doc → bool) upd l :
  (∀ a, f a = g a) → set_first f upd l = set_first g upd l.
Proof. intros E. induction l as [|a l IH]; [done|]. cbn. by rewrite E, IH. Qed.

Lemma delete_first_pointwise (f g : doc → bool) l :
  (∀ a, f a = g a) → delete_first f l = delete_first g l.
Proof. intros E. induction l as [|a l IH]; [done|]. cbn. by rewrite E, IH. Qed.

Lemma existsb_pointwise {A} (f g : A → bool) l :
  (∀ a, f a = g a) → existsb f l = existsb g l.
Proof. intros E. induction l as [|a l IH]; [done|]. cbn. by rewrite E, IH. Qed.

Lemma find_one_id tid w :
  find_one [Field "id" (EqStr tid)] w = (Ok (List.find (by_id tid) (tours w)), w).
Proof.
  destruct (matcher_id tid w) as (f & Hm & Hf). unfold find_one.
  rewrite (bind_ok _ _ _ _ _ Hm). by rewrite (find_pointwise _ _ _ Hf).
Qed.

Lemma update_one_id tid upd w :
  update_one [Field "id" (EqStr tid)] upd w =
  match to_store upd w with
  | (Ok upd', w') =>
      (Ok tt, set_tours (set_first (by_id tid) upd' (tours w')) w')
  | (Raise e, w') => (Raise e, w')
  end.
Proof.
  destruct (matcher_id tid w) as (f & Hm & Hf). unfold update_one.
  rewrite (bind_ok _ _ _ _ _ Hm). unfold bind.
  destruct (to_store upd w) as [[upd'|e] w']; [|done].
  by rewrite (set_first_pointwise _ _ _ _ Hf).
Qed.

Lemma delete_one_id tid w :
  delete_one [Field "id" (EqStr tid)] w =
  (Ok (if existsb (by_id tid) (tours w) then 1 else 0)%Z,
   set_tours (delete_first (by_id tid) (tours w)) w).
Proof.
  destruct (matcher_id tid w) as (f & Hm & Hf). unfold delete_one.
  rewrite (bind_ok _ _ _ _ _ Hm).
  by rewrite (existsb_pointwise _ _ _ Hf), (delete_first_pointwise _ _ _ Hf).
Qed.

(** ** The collection as a list of Tours *)

Arguments Tour.dict : simpl never.
Arguments Tour.new : simpl never.
Arguments by_id : simpl never.
Arguments has_id : simpl never.

Lemma has_id_true tid (x : Tour.t) : has_id tid x = true ↔ Tour.id x = tid.
Proof. unfold has_id. apply String.eqb_eq. Qed.

Lemma has_id_false tid (x : Tour.t) : has_id tid x = false ↔ Tour.id x ≠ tid.
Proof. unfold has_id. apply String.eqb_neq. Qed.

Lemma find_dict tid (ts : list Tour.t) :
  List.find (by_id tid) (Tour.dict <$> ts) = Tour.dict <$> List.find (has_id tid) ts.
Proof.
  induction ts as [|a ts IH]; [done|]. cbn. rewrite by_id_dict.
  by destruct (has_id tid a).
Qed.

Lemma existsb_dict tid (ts : list Tour.t) :
  existsb (by_id tid) (Tour.dict <$> ts) = existsb (has_id tid) ts.
Proof.
  induction ts as [|a ts IH]; [done|]. cbn. by rewrite by_id_dict, IH.
Qed.

(** An id that is absent. *)
Lemma find_absent tid (ts : list Tour.t) :
  tid ∉ ids ts → List.find (has_id tid) ts = None.
Proof.
  induction ts as [|a ts IH]; [done|]. cbn. intros Hn.
  apply not_elem_of_cons in Hn as [Hne Hn].
  rewrite (proj2 (has_id_false tid a)) by done. by apply IH.
Qed.

Lemma existsb_absent tid (ts : list Tour.t) :
  tid ∉ ids ts → existsb (has_id tid) ts = false.
Proof.
  induction ts as [|a ts IH]; [done|]. cbn. intros Hn.
  apply not_elem_of_cons in Hn as [Hne Hn].
  rewrite (proj2 (has_id_false tid a)) by done. by apply IH.
Qed.

Lemma delete_first_absent tid (ts : list Tour.t) :
  tid ∉ ids ts → delete_first (by_id tid) (Tour.dict <$> ts) = Tour.dict <$> ts.
Proof.
  induction ts as [|a ts IH]; [done|]. cbn. intros Hn.
  apply not_elem_of_cons in Hn as [Hne Hn].
  rewrite by_id_dict, (proj2 (has_id_false tid a)) by done. by rewrite IH.
Qed.

(** An id that is present, in a collection whose ids are distinct. *)
Lemma head_differs (a x : Tour.t) (ts : list Tour.t) i :
  NoDup (ids (a :: ts)) → ts !! i = Some x → has_id (Tour.id x) a = false.
Proof.
  intros Hnd Hx. apply has_id_false. intros E.
  apply NoDup_cons in Hnd as [Hn _]. apply Hn. rewrite E.
  apply list_elem_of_fmap. exists x. split; [done|].
  by apply list_elem_of_lookup_2 in Hx.
Qed.

Lemma find_present (ts : list Tour.t) i x :
  NoDup (ids ts) → ts !! i = Some x → List.find (has_id (Tour.id x)) ts = Some x.
Proof.
  revert i. induction ts as [|a ts IH]; intros [|i] Hnd Hx; try done; cbn in *.
  - injection Hx as ->. by rewrite (proj2 (has_id_true _ _)).
  - rewrite (head_differs _ _ _ _ Hnd Hx). apply NoDup_cons in Hnd as [_ Hnd]. eauto.
Qed.

Lemma existsb_present (ts : list Tour.t) i x :
  ts !! i = Some x → existsb (has_id (Tour.id x)) ts = true.
Proof.
  intros Hx. apply existsb_exists. exists x. split.
  - apply list_elem_of_In. by apply list_elem_of_lookup_2 in Hx.
  - by apply has_id_true.
Qed.

Lemma set_first_present upd (ts : list Tour.t) i x :
  NoDup (ids ts) → ts !! i = Some x →
  set_first (by_id (Tour.id x)) upd (Tour.dict <$> ts) =
  <[i := upd ∪ Tour.dict x]> (Tour.dict <$> ts).
Proof.
  revert i. induction ts as [|a ts IH]; intros [|i] Hnd Hx; try done; cbn in *.
  - injection Hx as ->. by rewrite by_id_dict, (proj2 (has_id_true _ _)).
  - rewrite by_id_dict, (head_differs _ _ _ _ Hnd Hx).
    apply NoDup_cons in Hnd as [_ Hnd]. f_equal. eauto.
Qed.

Lemma delete_first_present (ts : list Tour.t) i x :
  NoDup (ids ts) → ts !! i = Some x →
  delete_first (by_id (Tour.id x)) (Tour.dict <$> ts) = Tour.dict <$> delete i ts.
Proof.
  revert i. induction ts as [|a ts IH]; intros [|i] Hnd Hx; try done; cbn in *.
  - injection Hx as ->. by rewrite by_id_dict, (proj2 (has_id_true _ _)).
  - rewrite by_id_dict, (head_differs _ _ _ _ Hnd Hx).
    apply NoDup_cons in Hnd as [_ Hnd]. f_equal. eauto.
Qed.

Lemma ids_delete_absent (ts : list Tour.t) i x :
  NoDup (ids ts) → ts !! i = Some x → Tour.id x ∉ ids (delete i ts).
Proof.
  revert i. induction ts as [|a ts IH]; intros [|i] Hnd Hx; try done; cbn in *.
  - injection Hx as ->. by apply NoDup_cons in Hnd as [Hn _].
  - apply not_elem_of_cons. split.
    + intros E. pose proof (head_differs _ _ _ _ Hnd Hx) as Hd.
      apply has_id_false in Hd. congruence.
    + apply NoDup_cons in Hnd as [_ Hnd]. eauto.
Qed.

Lemma ids_insert_same (ts : list Tour.t) i x y :
  ts !! i = Some x → Tour.id y = Tour.id x → ids (<[i := y]> ts) = ids ts.
Proof.
  intros Hx E. unfold ids. rewrite list_fmap_insert, E.
  apply list_insert_id. by rewrite list_lookup_fmap, Hx.
Qed.

(** ** Handlers on one Tour *)

Lemma find_fresh (ts : list Tour.t) (r : Tour.t) :
  Tour.id r ∉ ids ts → List.find (has_id (Tour.id r)) (ts ++ [r]) = Some r.
Proof.
  induction ts as [|a ts IH]; cbn; intros Hn.
  - by rewrite (proj2 (has_id_true _ _)).
  - apply not_elem_of_cons in Hn as [Hne Hn].
    rewrite (proj2 (has_id_false _ a)) by done. by apply IH.
Qed.

Lemma tnew_create (tour_data : TourCreate.t) w :
  Tour.new (TourCreate.dict tour_data) w =
  (Ok (new_tour (uuid_src w 0) tour_data (clock w 0) (clock w 1)), drawn w).
Proof. destruct tour_data. reflexivity. Qed.

Lemma get_tour_present w (ts : list Tour.t) i x :
  stores w ts → NoDup (ids ts) → ts !! i = Some x →
  get_tour (Tour.id x) w = (Ok x, w).
Proof.
  intros Hst Hnd Hx. unfold get_tour.
  erewrite bind_ok by apply find_one_id.
  rewrite Hst, find_dict, (find_present _ _ _ Hnd Hx). cbn [fmap option_fmap option_map].
  rewrite falsy_doc_dict. apply tnew_dict.
Qed.

Lemma get_tour_absent w (ts : list Tour.t) tid :
  stores w ts → tid ∉ ids ts →
  get_tour tid w = (Raise (HTTPException 404 "Tour not found"), w).
Proof.
  intros Hst Hn. unfold get_tour.
  erewrite bind_ok by apply find_one_id.
  by rewrite Hst, find_dict, (find_absent _ _ Hn).
Qed.

(** What [create_tour] does, in full. *)
Lemma create_tour_run (tour_data : TourCreate.t) (w : world) :
  create_tour tour_data w =
  match store_refuses w
          (Tour.dict (new_tour (uuid_src w 0) tour_data (clock w 0) (clock w 1)))
  with
  | Some e => (Raise e, drawn w)
  | None =>
      if input_fits tour_data
      then (Ok (new_tour (uuid_src w 0) tour_data (clock w 0) (clock w 1)),
            set_tours
              (tours w ++
               [Tour.dict (as_stored
                  (new_tour (uuid_src w 0) tour_data (clock w 0) (clock w 1)))])
              (drawn w))
      else (Raise OverflowError, drawn w)
  end.
Proof.
  unfold create_tour. erewrite bind_ok by apply tnew_create.
  unfold insert_one, to_store, bind. cbn [store_refuses drawn].
  destruct (store_refuses w _); [done|]. rewrite encode_dict.
  replace (input_of (new_tour _ tour_data _ _)) with tour_data
    by (by destruct tour_data).
  by destruct (input_fits tour_data).
Qed.

(** ** Updating *)

(** What [update_tour] does on the id of a stored Tour, in full. *)
Lemma update_tour_run (u : TourUpdate.t) (w : world) (ts : list Tour.t) i x :
  stores w ts → NoDup (ids ts) → ts !! i = Some x →
  update_tour (Tour.id x) u w =
  match store_refuses w (update_doc u (clock w 0)) with
  | Some e => (Raise e, tick w)
  | None =>
      if update_fits u
      then (Ok (patched u (millis (clock w 0)) x),
            set_tours
              (Tour.dict <$> <[i := patched u (millis (clock w 0)) x]> ts)
              (tick w))
      else (Raise OverflowError, tick w)
  end.
Proof.
  intros Hst Hnd Hx.
  set (x' := patched u (millis (clock w 0)) x).
  assert (Hx' : <[i := x']> ts !! i = Some x').
  { apply list_lookup_insert_eq. by apply lookup_lt_Some in Hx. }
  assert (Hnd' : NoDup (ids (<[i := x']> ts))).
  { by rewrite (ids_insert_same _ _ x x'). }
  assert (Hset : set_first (by_id (Tour.id x)) (update_doc u (millis (clock w 0)))
                   (tours w) = Tour.dict <$> <[i := x']> ts).
  { unfold update_doc. rewrite Hst, (set_first_present _ _ _ _ Hnd Hx), set_dict.
    by rewrite list_fmap_insert. }
  unfold update_tour. erewrite bind_ok by apply find_one_id.
  rewrite Hst, find_dict, (find_present _ _ _ Hnd Hx).
  cbn [fmap option_fmap option_map]. rewrite falsy_doc_dict.
  erewrite bind_ok by reflexivity.
  change (<["updated_at" := VDatetime (clock w 0)]> _)
    with (update_doc u (clock w 0)).
  change (World (tours w) (uuid_src w) (λ n, clock w (S n)) (pcre_other w)
            (store_refuses w)) with (tick w).
  pose proof (update_one_id (Tour.id x) (update_doc u (clock w 0)) (tick w)) as Hup.
  unfold to_store in Hup. cbn [store_refuses tick] in Hup.
  destruct (store_refuses w (update_doc u (clock w 0))) as [e|].
  { by rewrite (bind_raise _ _ _ _ _ Hup). }
  rewrite encode_update_doc in Hup. destruct (update_fits u).
  2: { by rewrite (bind_raise _ _ _ _ _ Hup). }
  rewrite (bind_ok _ _ _ _ _ Hup).
  erewrite bind_ok by apply find_one_id.
  cbn [tours set_tours tick]. rewrite Hset, find_dict.
  change (Tour.id x) with (Tour.id x').
  rewrite (find_present _ _ _ Hnd' Hx').
  cbn [fmap option_fmap option_map Tour_of]. apply tnew_dict.
Qed.

(** ** Listing *)

Lemma dict_title (x : Tour.t) : Tour.dict x !! "title" = Some (VStr (Tour.title x)).
Proof. by destruct x. Qed.

Lemma dict_description (x : Tour.t) :
  Tour.dict x !! "description" = Some (VStr (Tour.description x)).
Proof. by destruct x. Qed.

Lemma dict_destination (x : Tour.t) :
  Tour.dict x !! "destination" = Some (VStr (Tour.destination x)).
Proof. by destruct x. Qed.

Lemma filter_dict (f : doc → bool) (g : Tour.t → bool) (ts : list Tour.t) :
  (∀ x, f (Tour.dict x) = g x) →
  List.filter f (Tour.dict <$> ts) = Tour.dict <$> List.filter g ts.
Proof.
  intros E. induction ts as [|a ts IH]; [done|]. cbn. rewrite E, IH.
  by destruct (g a).
Qed.

Lemma get_tours_selector w (ts : list Tour.t) search destination :
  stores w ts →
  get_tours search destination w =
  match selector w search destination with
  | Some f => (Ok (take 1000 (List.filter f ts)), w)
  | None => (Raise OperationFailure, w)
  end.
Proof.
  intros Hst. unfold get_tours, selector, find, matcher, bind.
  destruct (truthy_str search), (truthy_str destination); cbn;
    repeat match goal with
           | |- context [regex_i w ?p] => destruct (regex_i w p) as [?m|]; cbn
           end;
    try reflexivity;
    rewrite Hst;
    match goal with
    | |- context [List.filter ?f (Tour.dict <$> ts)] =>
        match goal with
        | |- context [List.filter ?g ts] => rewrite (filter_dict f g)
        end
    end;
    try (by rewrite <- fmap_take, list_comp_new);
    intros x; rewrite ?dict_title, ?dict_description, ?dict_destination;
    unfold hit_any, hit_destination;
    repeat match goal with
           | |- context [?m (?p x)] => destruct (m (p x))
           end; reflexivity.
Qed.

(** ** Plain patterns are substring tests *)

Arguments to_lower : simpl never.

Lemma not_meta c m : is_meta c = false → In m metachars → Ascii.eqb c m = false.
Proof.
  intros Hc Hm. destruct (Ascii.eqb c m) eqn:E; [|done].
  assert (is_meta c = true); [|congruence].
  apply existsb_exists. eauto.
Qed.

Lemma plain_cons c x :
  plain (String c x) ↔ (printable c = true ∧ is_meta c = false) ∧ plain x.
Proof.
  unfold plain. cbn. by rewrite !andb_true_iff, negb_true_iff.
Qed.

Lemma parse_plain x : plain x → parse_pattern x = Some (lits x).
Proof.
  induction x as [|c x IH]; [done|]. intros [[Hp Hc] Hx]%plain_cons.
  cbn [parse_pattern].
  rewrite (not_meta c backslash Hc) by (cbn; tauto).
  rewrite (not_meta c "."%char Hc) by (cbn; tauto).
  by rewrite Hc, Hp, (IH Hx).
Qed.

Lemma match_here_lits x s :
  match_here (lits x) s = true ↔ ∃ post, lower s = String.append (lower x) post.
Proof.
  revert s. induction x as [|c x IH]; intros s; cbn.
  - split; [eauto|done].
  - destruct s as [|a s]; cbn.
    + split; [done|]. by intros [post ?].
    + rewrite andb_true_iff, IH, Ascii.eqb_eq. split.
      * intros [-> [post ->]]. eauto.
      * intros [post E]. injection E as -> ->. eauto.
Qed.

Lemma re_search_lits x s : re_search (lits x) s = true ↔ contains_ci x s.
Proof.
  unfold contains_ci. induction s as [|a s IH]; cbn.
  - rewrite orb_false_r. rewrite (match_here_lits x EmptyString). cbn. split.
    + intros [post E]. by exists EmptyString, post.
    + intros (pre & post & E). destruct pre; [|done]. eauto.
  - rewrite orb_true_iff, IH. rewrite (match_here_lits x (String a s)). cbn.
    split.
    + intros [[post E]|(pre & post & E)].
      * by exists EmptyString, post.
      * exists (String (to_lower a) pre), post. cbn. by rewrite E.
    + intros (pre & post & E). destruct pre as [|b pre]; cbn in E.
      * left. eauto.
      * right. injection E as _ E. eauto.
Qed.

Lemma regex_i_plain w x :
  plain x → regex_i w x = Some (interpreted w x (lits x)).
Proof. intros Hx. unfold regex_i. by rewrite (parse_plain x Hx). Qed.

Lemma interpreted_printable w pattern p s :
  printable_str s = true → interpreted w pattern p s = re_search p s.
Proof. intros Hs. unfold interpreted. by rewrite Hs. Qed.

Lemma contains_ci_empty s : contains_ci EmptyString s.
Proof. by exists EmptyString, (lower s). Qed.

Lemma filter_pointwise {A} (f g : A → bool) (l : list A) :
  (∀ a, f a = g a) → List.filter f l = List.filter g l.
Proof. intros E. induction l as [|a l IH]; [done|]. cbn. by rewrite E, IH. Qed.

Lemma elem_of_filter_bool {A} (f : A → bool) (l : list A) x :
  x ∈ List.filter f l ↔ x ∈ l ∧ f x = true.
Proof. rewrite !list_elem_of_In. apply filter_In. Qed.

Lemma filter_length_le {A} (f : A → bool) (l : list A) :
  length (List.filter f l) ≤ length l.
Proof. induction l as [|a l IH]; cbn; [done|]. destruct (f a); cbn; lia. Qed.

Lemma truthy_str_Some x : x ≠ EmptyString → truthy_str (Some x) = true.
Proof. intros Hx. cbn. by rewrite (proj2 (String.eqb_neq x EmptyString)). Qed.

Lemma hit_any_mentions x t :
  hit_any (re_search (lits x)) t = true ↔ mentions x t.
Proof.
  unfold hit_any, mentions. rewrite !orb_true_iff, !re_search_lits. tauto.
Qed.

Lemma hit_any_interpreted w X (x : Tour.t) :
  printable_fields x = true →
  hit_any (interpreted w X (lits X)) x = true ↔ mentions X x.
Proof.
  unfold printable_fields. rewrite !andb_true_iff. intros [[H1 H2] H3].
  rewrite <- hit_any_mentions. unfold hit_any.
  by rewrite !interpreted_printable.
Qed.

Lemma late_not_in_crowd : late ∉ crowd.
Proof.
  unfold crowd. intros (n & E & _)%list_elem_of_fmap. discriminate E.
Qed.

(** ** Request bodies *)

Lemma required_None {A} (v : json → option A) body k :
  rejects v body k → required v body k = None.
Proof.
  unfold required. intros [->|(j & -> & Hj)]; [done|]. exact Hj.
Qed.

Lemma required_Some {A} (v : json → option A) body k a :
  required v body k = Some a → is_Some (body !! k).
Proof. unfold required. destruct (body !! k); [eauto|done]. Qed.

Lemma optional_null {A} (v : json → option A) body k o :
  optional v body k = Some o → body !! k = Some JNull → o = None.
Proof. unfold optional. intros H E. rewrite E in H. congruence. Qed.

Lemma dict_no_None (x : Tour.t) k : Tour.dict x !! k ≠ Some VNone.
Proof.
  destruct (decide (k ∈ Tour_keys)) as [Hin|Hout].
  - unfold Tour_keys in Hin. destruct x.
    repeat (apply elem_of_cons in Hin as [->|Hin]; [done|]).
    by apply elem_of_nil in Hin.
  - by rewrite Tour_dict_other.
Qed.

(** ** The handlers on a collection of Tours *)

Lemma get_tour_stores (tour_id : string) (w : world) (ts : list Tour.t) :
  stores w ts →
  get_tour tour_id w =
  match List.find (has_id tour_id) ts with
  | Some x => (Ok x, w)
  | None => (Raise (HTTPException 404 "Tour not found"), w)
  end.
Proof.
  intros Hst. unfold get_tour. erewrite bind_ok by apply find_one_id.
  rewrite Hst, find_dict. destruct (List.find (has_id tour_id) ts) as [x|]; [|done].
  cbn [fmap option_fmap option_map]. rewrite falsy_doc_dict. apply tnew_dict.
Qed.

Lemma delete_tour_present (w : world) (ts : list Tour.t) i x :
  stores w ts → NoDup (ids ts) → ts !! i = Some x →
  delete_tour (Tour.id x) w =
  (Ok {["message" := "Tour deleted successfully"]},
   set_tours (Tour.dict <$> delete i ts) w).
Proof.
  intros Hst Hnd Hx. unfold delete_tour. erewrite bind_ok by apply delete_one_id.
  by rewrite Hst, existsb_dict, (existsb_present _ _ _ Hx),
    (delete_first_present _ _ _ Hnd Hx).
Qed.

Lemma delete_tour_absent (w : world) (ts : list Tour.t) tid :
  stores w ts → tid ∉ ids ts →
  delete_tour tid w = (Raise (HTTPException 404 "Tour not found"), w).
Proof.
  intros Hst Hn. unfold delete_tour. erewrite bind_ok by apply delete_one_id.
  rewrite Hst, existsb_dict, (existsb_absent _ _ Hn), (delete_first_absent _ _ Hn).
  cbn. rewrite <- Hst. by rewrite set_tours_id.
Qed.

Lemma update_tour_absent (u : TourUpdate.t) (w : world) (ts : list Tour.t) tid :
  stores w ts → tid ∉ ids ts →
  update_tour tid u w = (Raise (HTTPException 404 "Tour not found"), w).
Proof.
  intros Hst Hn. unfold update_tour. erewrite bind_ok by apply find_one_id.
  by rewrite Hst, find_dict, (find_absent _ _ Hn).
Qed.

Lemma find_app_Some {A} (f : A → bool) (l l' : list A) x :
  List.find f l = Some x → List.find f (l ++ l') = Some x.
Proof.
  induction l as [|a l IH]; [done|]. cbn. by destruct (f a).
Qed.

(** ** An invariant of the running service *)

Lemma ids_delete_sublist (ts : list Tour.t) i : ids (delete i ts) `sublist_of` ids ts.
Proof. unfold ids. rewrite list_fmap_delete. apply sublist_delete. Qed.

Lemma id_lookup (ts : list Tour.t) tid :
  tid ∈ ids ts → ∃ i x, ts !! i = Some x ∧ Tour.id x = tid.
Proof.
  intros (x & -> & Hin)%list_elem_of_fmap.
  apply list_elem_of_lookup_1 in Hin as [i Hi]. eauto.
Qed.

Lemma sound_same_tours (w w' : world) :
  tours w' = tours w → (∀ n, ∃ m, uuid_src w' n = uuid_src w m) →
  sound w → sound w'.
Proof.
  intros Ht Hu (ts & Hst & Hnd & Hfresh). exists ts. split; [|split; [done|]].
  - unfold stores in *. congruence.
  - intros n. destruct (Hu n) as [m ->]. apply Hfresh.
Qed.

Lemma serve_keeps (r : request) (w : world) :
  sound w → never_repeats w →
  sound (serve r w) ∧ never_repeats (serve r w).
Proof.
  intros Hs Hinj. pose proof Hs as (ts & Hst & Hnd & Hfresh).
  assert (Hdrawn : sound (drawn w) ∧ never_repeats (drawn w)).
  { split.
    - apply (sound_same_tours w); [done| |done]. intros n. by exists (S n).
    - intros m n E. cbn in E. apply Hinj in E. lia. }
  assert (Htick : sound (tick w) ∧ never_repeats (tick w)).
  { split; [|done]. apply (sound_same_tours w); [done| |done].
    intros n. by exists n. }
  destruct r as [td|s d|tid|tid u|tid]; cbn [serve].
  - rewrite create_tour_run.
    destruct (store_refuses w _); [done|]. destruct (input_fits td); [|done].
    cbn [snd]. split; [|apply Hdrawn].
    eexists (ts ++ [as_stored _]). split; [|split].
    + unfold stores in *. cbn. rewrite Hst, fmap_app. reflexivity.
    + unfold ids. rewrite fmap_app. apply NoDup_app. split; [done|].
      split; [|apply NoDup_singleton].
      intros y Hy ->%list_elem_of_singleton. by apply (Hfresh 0).
    + intros n. unfold ids. rewrite fmap_app. intros [Hn|Hn]%elem_of_app.
      * by apply (Hfresh (S n)).
      * apply list_elem_of_singleton in Hn. cbn in Hn. by apply Hinj in Hn.
  - rewrite (get_tours_selector w ts _ _ Hst). by destruct (selector w s d).
  - rewrite (get_tour_stores _ _ _ Hst).
    by destruct (List.find (has_id tid) ts).
  - destruct (decide (tid ∈ ids ts)) as [Hin|Hout].
    + destruct (id_lookup _ _ Hin) as (i & x & Hx & <-).
      rewrite (update_tour_run u w ts i x Hst Hnd Hx).
      destruct (store_refuses w _); [done|]. destruct (update_fits u); [|done].
      cbn [snd]. split; [|done]. eexists. split; [reflexivity|].
      rewrite (ids_insert_same _ _ x) by done. done.
    + by rewrite (update_tour_absent u w ts tid Hst Hout).
  - destruct (decide (tid ∈ ids ts)) as [Hin|Hout].
    + destruct (id_lookup _ _ Hin) as (i & x & Hx & <-).
      rewrite (delete_tour_present w ts i x Hst Hnd Hx). cbn.
      split; [|done]. eexists. split; [reflexivity|]. split.
      * eapply sublist_NoDup; [exact Hnd|apply ids_delete_sublist].
      * intros n Hn. apply (Hfresh n).
        eapply elem_of_sublist; [exact Hn|apply ids_delete_sublist].
    + by rewrite (delete_tour_absent w ts tid Hst Hout).
Qed.

Lemma serve_all_keeps (rs : list request) (w : world) :
  sound w → never_repeats w →
  sound (serve_all rs w) ∧ never_repeats (serve_all rs w).
Proof.
  unfold serve_all. revert w.
  induction rs as [|r rs IH]; intros w Hs Hinj; [done|]. cbn.
  destruct (serve_keeps r w Hs Hinj) as [Hs' Hinj']. by apply IH.
Qed.

Lemma empty_sound (w : world) : tours w = [] → sound w.
Proof.
  intros Hempty. exists []. split; [done|]. split; [apply NoDup_nil_2|].
  intros n. apply not_elem_of_nil.
Qed.

(** * The contract *)

(** ** Create, read, update and delete one Tour *)

(** C1, as the code has it. In every state the service reaches from an
    empty collection with a uuid source that never repeats, Create of an
    input whose integers fit 64 bits, when the store does not refuse the
    document, draws an id no stored Tour has, returns the record with that
    id, the two clock readings and the input in all input fields, and
    stores it with its timestamps in whole milliseconds; ids stay distinct,
    and a subsequent GetById with the returned id yields the stored record,
    equal to the input in all input fields. *)
Theorem create_then_get (tour_data : TourCreate.t) (rs : list request)
    (w0 w : world) :
  tours w0 = [] →
  never_repeats w0 →
  w = serve_all rs w0 →
  input_fits tour_data = true →
  store_refuses w
    (Tour.dict (new_tour (uuid_src w 0) tour_data (clock w 0) (clock w 1))) =
    None →
  ∃ ts r w',
    stores w ts ∧
    create_tour tour_data w = (Ok r, w') ∧
    Tour.id r = uuid_src w 0 ∧
    (Tour.id r ∉ ids ts) ∧
    Tour.created_at r = clock w 0 ∧
    Tour.updated_at r = clock w 1 ∧
    input_of r = tour_data ∧
    stores w' (ts ++ [as_stored r]) ∧
    NoDup (ids (ts ++ [as_stored r])) ∧
    get_tour (Tour.id r) w' = (Ok (as_stored r), w') ∧
    input_of (as_stored r) = tour_data.
Proof.
  intros Hempty Hinj -> Hfits Hacc.
  destruct (serve_all_keeps rs w0 (empty_sound w0 Hempty) Hinj)
    as [(ts & Hst & Hnd & Hfresh) _].
  set (w := serve_all rs w0) in *.
  set (r := new_tour (uuid_src w 0) tour_data (clock w 0) (clock w 1)) in *.
  assert (Hst' : stores (set_tours (tours w ++ [Tour.dict (as_stored r)]) (drawn w))
                   (ts ++ [as_stored r])).
  { unfold stores in *. cbn. by rewrite Hst, fmap_app. }
  exists ts, r. eexists. split; [exact Hst|]. split.
  { rewrite create_tour_run. fold r. by rewrite Hacc, Hfits. }
  split; [done|]. split; [apply Hfresh|]. split; [done|]. split; [done|].
  split; [by destruct tour_data|]. split; [exact Hst'|]. split.
  - unfold ids. rewrite fmap_app. apply NoDup_app. split; [done|].
    split; [|apply NoDup_singleton].
    intros y Hy ->%list_elem_of_singleton. by apply (Hfresh 0).
  - split; [|by destruct tour_data].
    rewrite (get_tour_stores _ _ _ Hst').
    change (Tour.id r) with (Tour.id (as_stored r)).
    rewrite find_fresh; [done|]. apply Hfresh.
Qed.

Lemma create_then_get_witness :
  ∃ ts r w',
    create_tour (input_of bali) (serve_all [ReqCreate endless] opening) =
      (Ok r, w') ∧
    (Tour.id r ∉ ids ts) ∧
    input_of r = input_of bali ∧
    get_tour (Tour.id r) w' = (Ok (as_stored r), w').
Proof.
  destruct (create_then_get (input_of bali) [ReqCreate endless] opening
              (serve_all [ReqCreate endless] opening))
    as (ts & r & w' & _ & H2 & _ & H4 & _ & _ & H7 & _ & _ & H10 & _).
  - reflexivity.
  - intros m n H. cbn in H. by apply (inj pretty) in H.
  - reflexivity.
  - reflexivity.
  - reflexivity.
  - exists ts, r, w'. exact (conj H2 (conj H4 (conj H7 H10))).
Defined.

(** C1, as stated, fails: a create input is valid with any integer, but
    one with a duration of [2 ^ 63] cannot be encoded for the store: Create
    fails and nothing is stored. *)
Lemma create_overflow_stores_nothing :
  create_tour endless opening = (Raise OverflowError, drawn opening) ∧
  tours (drawn opening) = [] ∧
  get_tour (uuid_src opening 0) (drawn opening) =
    (Raise (HTTPException 404 "Tour not found"), drawn opening).
Proof. repeat split; reflexivity. Qed.

(** C2. For an id that is not in the collection, GetById, Update and
    Delete each fail with the 404 [HTTPException], and the world, with its
    collection, is left as it was. *)
Theorem absent_id_not_found (tour_id : string) (w : world) (ts : list Tour.t) :
  stores w ts →
  tour_id ∉ ids ts →
  get_tour tour_id w = (Raise (HTTPException 404 "Tour not found"), w) ∧
  (∀ tour_data,
     update_tour tour_id tour_data w =
     (Raise (HTTPException 404 "Tour not found"), w)) ∧
  delete_tour tour_id w = (Raise (HTTPException 404 "Tour not found"), w) ∧
  status_of (HTTPException 404 "Tour not found") = 404%Z.
Proof.
  intros Hst Hn. split; [by eapply get_tour_absent|]. split; [|split; [|done]].
  - intros tour_data. unfold update_tour.
    erewrite bind_ok by apply find_one_id.
    by rewrite Hst, find_dict, (find_absent _ _ Hn).
  - unfold delete_tour. erewrite bind_ok by apply delete_one_id.
    rewrite Hst, existsb_dict, (existsb_absent _ _ Hn), (delete_first_absent _ _ Hn).
    cbn. rewrite <- Hst. by rewrite set_tours_id.
Qed.

Lemma absent_id_not_found_witness :
  get_tour "t9" agency = (Raise (HTTPException 404 "Tour not found"), agency) ∧
  delete_tour "t9" agency =
    (Raise (HTTPException 404 "Tour not found"), agency).
Proof.
  destruct (absent_id_not_found "t9" agency [bali]) as (H1 & _ & H3 & _).
  - reflexivity.
  - unfold ids. cbn. apply not_elem_of_cons.
    split; [discriminate|apply not_elem_of_nil].
  - exact (conj H1 H3).
Defined.

(** C5, as the code has it. Update of an existing Tour with a payload
    whose integers fit 64 bits, when the store does not refuse the update,
    returns, and stores in its place, the record [patched]: each supplied
    field takes the supplied value, each omitted field, [id] and
    [created_at] keep their value, and [updated_at] becomes the clock
    reading in whole milliseconds, whatever the payload supplies. *)
Theorem update_tour_patches (tour_data : TourUpdate.t) (w : world)
    (ts : list Tour.t) (i : nat) (x : Tour.t) :
  stores w ts →
  NoDup (ids ts) →
  ts !! i = Some x →
  update_fits tour_data = true →
  store_refuses w (update_doc tour_data (clock w 0)) = None →
  ∃ w',
    update_tour (Tour.id x) tour_data w =
      (Ok (patched tour_data (millis (clock w 0)) x), w') ∧
    stores w' (<[i := patched tour_data (millis (clock w 0)) x]> ts) ∧
    NoDup (ids (<[i := patched tour_data (millis (clock w 0)) x]> ts)) ∧
    get_tour (Tour.id x) w' =
      (Ok (patched tour_data (millis (clock w 0)) x), w').
Proof.
  intros Hst Hnd Hx Hfits Hacc.
  set (x' := patched tour_data (millis (clock w 0)) x).
  assert (Hx' : <[i := x']> ts !! i = Some x').
  { apply list_lookup_insert_eq. by apply lookup_lt_Some in Hx. }
  assert (Hnd' : NoDup (ids (<[i := x']> ts))).
  { by rewrite (ids_insert_same _ _ x x'). }
  eexists. split.
  { rewrite (update_tour_run tour_data w ts i x Hst Hnd Hx).
    by rewrite Hacc, Hfits. }
  split; [reflexivity|]. split; [exact Hnd'|].
  change (Tour.id x) with (Tour.id x').
  by eapply get_tour_present.
Qed.

Lemma update_tour_patches_witness :
  ∃ w',
    update_tour "t1" price_only agency = (Ok (patched price_only 200000 bali), w') ∧
    stores w' [patched price_only 200000 bali].
Proof.
  destruct (update_tour_patches price_only agency [bali] 0 bali)
    as (w' & H1 & H2 & _).
  - reflexivity.
  - apply NoDup_singleton.
  - reflexivity.
  - reflexivity.
  - reflexivity.
  - exists w'. exact (conj H1 H2).
Defined.

(** C5, as stated, fails: a payload is valid with any integer, but one
    with a duration of [2 ^ 63] cannot be encoded for the store: Update
    fails, returns no record and the stored Tour keeps all its fields. *)
Lemma update_overflow_changes_nothing :
  stores agency [bali] ∧
  update_tour "t1" endless_update agency = (Raise OverflowError, tick agency) ∧
  stores (tick agency) [bali].
Proof. repeat split; reflexivity. Qed.

(** C6. Delete of an existing Tour succeeds with the bare confirmation
    message, removes the record from the collection, and a subsequent
    GetById on the same id fails with 404. *)
Theorem delete_then_get (w : world) (ts : list Tour.t) (i : nat) (x : Tour.t) :
  stores w ts →
  NoDup (ids ts) →
  ts !! i = Some x →
  ∃ w',
    delete_tour (Tour.id x) w =
      (Ok {["message" := "Tour deleted successfully"]}, w') ∧
    stores w' (delete i ts) ∧
    get_tour (Tour.id x) w' = (Raise (HTTPException 404 "Tour not found"), w').
Proof.
  intros Hst Hnd Hx.
  assert (Hst' : stores (set_tours (delete_first (by_id (Tour.id x)) (tours w)) w)
                   (delete i ts)).
  { unfold stores. cbn [tours set_tours].
    by rewrite Hst, (delete_first_present _ _ _ Hnd Hx). }
  eexists. split; [|split; [exact Hst'|]].
  - unfold delete_tour. erewrite bind_ok by apply delete_one_id.
    by rewrite Hst, existsb_dict, (existsb_present _ _ _ Hx).
  - eapply get_tour_absent; [exact Hst'|]. by eapply ids_delete_absent.
Qed.

Lemma delete_then_get_witness :
  ∃ w',
    delete_tour "t1" agency =
      (Ok {["message" := "Tour deleted successfully"]}, w') ∧
    stores w' [] ∧
    get_tour "t1" w' = (Raise (HTTPException 404 "Tour not found"), w').
Proof.
  apply (delete_then_get agency [bali] 0 bali).
  - reflexivity.
  - apply NoDup_singleton.
  - reflexivity.
Defined.

(** ** Listing *)

(** C3, as the code has it. List with [search=X] returns the first 1000,
    in store order, of the Tours whose title, description or destination
    is matched by [X] read by the store as a caseless regular expression;
    when [X] is printable ASCII without metacharacters, a Tour whose three
    fields are printable ASCII is among those exactly when one of the three
    contains [X] as a case-insensitive substring. *)
Theorem list_search (w : world) (ts : list Tour.t) (X : string) :
  stores w ts →
  (∀ m, X ≠ EmptyString → regex_i w X = Some m →
     get_tours (Some X) None w =
     (Ok (take 1000 (List.filter (hit_any m) ts)), w)) ∧
  (plain X →
     ∃ sel,
       get_tours (Some X) None w = (Ok (take 1000 (List.filter sel ts)), w) ∧
       ∀ x, printable_fields x = true → (sel x = true ↔ mentions X x)).
Proof.
  intros Hst.
  assert (Hre : ∀ m, X ≠ EmptyString → regex_i w X = Some m →
     get_tours (Some X) None w =
     (Ok (take 1000 (List.filter (hit_any m) ts)), w)).
  { intros m HX Hm. rewrite (get_tours_selector w ts _ _ Hst). unfold selector.
    rewrite (truthy_str_Some X HX). cbn. rewrite Hm. cbn.
    do 3 f_equal. apply filter_pointwise. intros a. apply andb_true_r. }
  split; [exact Hre|]. intros Hp.
  destruct (decide (X = EmptyString)) as [->|HX].
  - exists (λ _, true). split.
    + rewrite (get_tours_selector w ts _ _ Hst). reflexivity.
    + intros x _. split; [|done]. intros _. left. apply contains_ci_empty.
  - exists (hit_any (interpreted w X (lits X))). split.
    + apply Hre; [done|]. by apply regex_i_plain.
    + intros x Hx. by apply hit_any_interpreted.
Qed.

Lemma list_search_witness :
  ∃ sel,
    get_tours (Some "bali"%string) None agency =
      (Ok (take 1000 (List.filter sel [bali])), agency) ∧
    ∀ x, printable_fields x = true → (sel x = true ↔ mentions "bali" x).
Proof.
  exact (proj2 (list_search agency [bali] "bali" eq_refl) eq_refl).
Defined.

(** C3, as stated, fails: the search string [.] selects a Tour none of
    whose three fields contains a dot. *)
Lemma search_dot_selects_undotted :
  stores agency [bali] ∧
  get_tours (Some "."%string) None agency = (Ok [bali], agency) ∧
  ¬ mentions "." bali.
Proof.
  split; [reflexivity|]. split; [reflexivity|].
  intros H%hit_any_mentions. vm_compute in H. discriminate H.
Qed.

(** C4, as the code has it. For two non-empty filter strings that the
    store compiles, List with both filters returns the first 1000, in
    store order, of the Tours that pass the search filter and the
    destination filter, each single-filter List returning the first 1000
    of the Tours that pass its filter; when the collection holds at most
    1000 Tours the combined result is exactly the Tours that are in both
    single-filter results. *)
Theorem list_both_filters (w : world) (ts : list Tour.t) (S D : string)
    (m1 m2 : string → bool) :
  stores w ts →
  S ≠ EmptyString →
  D ≠ EmptyString →
  regex_i w S = Some m1 →
  regex_i w D = Some m2 →
  get_tours (Some S) None w =
    (Ok (take 1000 (List.filter (hit_any m1) ts)), w) ∧
  get_tours None (Some D) w =
    (Ok (take 1000 (List.filter (hit_destination m2) ts)), w) ∧
  get_tours (Some S) (Some D) w =
    (Ok (take 1000
           (List.filter (λ x, hit_any m1 x && hit_destination m2 x) ts)), w) ∧
  (length ts ≤ 1000 →
   ∀ x, x ∈ take 1000
              (List.filter (λ x, hit_any m1 x && hit_destination m2 x) ts) ↔
        x ∈ take 1000 (List.filter (hit_any m1) ts) ∧
        x ∈ take 1000 (List.filter (hit_destination m2) ts)).
Proof.
  intros Hst HS HD H1 H2.
  rewrite !(get_tours_selector w ts _ _ Hst). unfold selector.
  rewrite (truthy_str_Some S HS), (truthy_str_Some D HD). cbn [truthy_str].
  change (default EmptyString (Some S)) with S.
  change (default EmptyString (Some D)) with D.
  rewrite H1, H2. cbn.
  rewrite (filter_pointwise (λ x, hit_any m1 x && true) (hit_any m1))
    by (intros; apply andb_true_r).
  split; [done|]. split; [done|]. split; [done|]. intros Hlen x.
  rewrite !take_ge by (etrans; [apply filter_length_le|done]).
  rewrite !elem_of_filter_bool, andb_true_iff. tauto.
Qed.

Lemma list_both_filters_witness :
  get_tours (Some "bali"%string) (Some "indo"%string) agency =
  (Ok [bali], agency).
Proof.
  destruct (list_both_filters agency [bali] "bali" "indo"
              (interpreted agency "bali" (lits "bali"))
              (interpreted agency "indo" (lits "indo")))
    as (_ & _ & H & _).
  - reflexivity.
  - discriminate.
  - discriminate.
  - reflexivity.
  - reflexivity.
  - exact H.
Defined.

(** C4, as stated, fails: with 1001 Tours that all pass the search filter,
    the Tour created last passes both filters and is returned by the
    combined List, yet it is missing from the search-only result. *)
Lemma list_both_not_intersection :
  stores crowded (crowd ++ [late]) ∧
  get_tours (Some "a"%string) (Some "b"%string) crowded = (Ok [late], crowded) ∧
  get_tours (Some "a"%string) None crowded = (Ok crowd, crowded) ∧
  late ∉ crowd.
Proof.
  assert (Hst : stores crowded (crowd ++ [late])) by reflexivity.
  split; [exact Hst|].
  rewrite !(get_tours_selector crowded _ _ _ Hst).
  split; [|split; [|apply late_not_in_crowd]]; reflexivity.
Qed.

(** C7, as the code has it. List with no filters returns the first 1000
    Tours of the collection in store order, hence every Tour when there are
    at most 1000, and no List call returns more than 1000 records. *)
Theorem list_unfiltered (w : world) (ts : list Tour.t) :
  stores w ts →
  get_tours None None w = (Ok (take 1000 ts), w) ∧
  (length ts ≤ 1000 → get_tours None None w = (Ok ts, w)) ∧
  (∀ search destination l w',
     get_tours search destination w = (Ok l, w') → length l ≤ 1000).
Proof.
  intros Hst.
  assert (H0 : get_tours None None w = (Ok (take 1000 ts), w)).
  { rewrite (get_tours_selector w ts _ _ Hst). cbn. do 3 f_equal.
    clear Hst. induction ts as [|a l IH]; [done|]. cbn. f_equal. apply IH. }
  split; [exact H0|]. split.
  - intros Hlen. by rewrite H0, take_ge.
  - intros s d l w'. rewrite (get_tours_selector w ts _ _ Hst).
    destruct (selector w s d); [|done]. intros [= <- _].
    rewrite length_take. lia.
Qed.

Lemma list_unfiltered_witness :
  get_tours None None agency = (Ok [bali], agency).
Proof.
  exact (proj1 (list_unfiltered agency [bali] eq_refl)).
Defined.

(** C7, as stated, fails: with 1001 Tours in the collection the unfiltered
    List leaves out the Tour created last. *)
Lemma list_unfiltered_omits_a_tour :
  stores crowded (crowd ++ [late]) ∧
  get_tours None None crowded = (Ok crowd, crowded) ∧
  late ∈ crowd ++ [late] ∧
  late ∉ crowd.
Proof.
  assert (Hst : stores crowded (crowd ++ [late])) by reflexivity.
  split; [exact Hst|]. split; [|split; [|apply late_not_in_crowd]].
  - rewrite (get_tours_selector crowded _ _ _ Hst). reflexivity.
  - apply elem_of_app. right. by apply list_elem_of_singleton.
Qed.

(** C9. An empty-string [search], or an empty-string [destination], is
    treated as no filter: the call is the same as with the parameter
    absent. *)
Theorem empty_filter_is_no_filter (w : world) (search destination : option string) :
  get_tours (Some EmptyString) destination w = get_tours None destination w ∧
  get_tours search (Some EmptyString) w = get_tours search None w.
Proof. split; reflexivity. Qed.

(** ** Request bodies *)

Section RequestProofs.

Variable str_validator : json → option string.
Variable int_validator : json → option Z.
Variable float_validator : json → option float.
Variable dict_validator : json → option (list (string * json)).

Local Abbreviation post :=
  (post_tours str_validator int_validator float_validator dict_validator).
Local Abbreviation put :=
  (put_tour str_validator int_validator float_validator dict_validator).

Lemma parse_update_null (body : gmap string json) (u : TourUpdate.t) :
  TourUpdate_parse str_validator int_validator float_validator dict_validator
    body = Some u →
  (body !! "title" = Some JNull → TourUpdate.title u = None) ∧
  (body !! "description" = Some JNull → TourUpdate.description u = None) ∧
  (body !! "destination" = Some JNull → TourUpdate.destination u = None) ∧
  (body !! "duration" = Some JNull → TourUpdate.duration u = None) ∧
  (body !! "price" = Some JNull → TourUpdate.price u = None) ∧
  (body !! "max_capacity" = Some JNull → TourUpdate.max_capacity u = None) ∧
  (body !! "available_spots" = Some JNull →
     TourUpdate.available_spots u = None) ∧
  (body !! "start_date" = Some JNull → TourUpdate.start_date u = None) ∧
  (body !! "end_date" = Some JNull → TourUpdate.end_date u = None) ∧
  (body !! "image_url" = Some JNull → TourUpdate.image_url u = None) ∧
  (body !! "package_details" = Some JNull →
     TourUpdate.package_details u = None).
Proof.
  unfold TourUpdate_parse.
  repeat match goal with
         | |- context [optional ?v body ?k] =>
             let E := fresh "E" in
             destruct (optional v body k) eqn:E; cbn; [|done]
         end.
  intros [= <-]. cbn. repeat split; intros Hn;
    match goal with
    | E : optional _ body ?k = Some ?o |- ?o = None =>
        match type of Hn with body !! k = _ => exact (optional_null _ _ _ _ E Hn) end
    end.
Qed.

(** C8. A create body that misses a field of [TourCreate], or holds a
    value there that the field's validator refuses, is answered with the
    request validation error (422) and the world, with its collection, is
    left as it was; a body that is accepted holds all eleven fields: none
    is optional. *)
Theorem create_rejects_invalid (body : gmap string json) (w : world) :
  (rejects str_validator body "title" ∨
   rejects str_validator body "description" ∨
   rejects str_validator body "destination" ∨
   rejects int_validator body "duration" ∨
   rejects float_validator body "price" ∨
   rejects int_validator body "max_capacity" ∨
   rejects int_validator body "available_spots" ∨
   rejects str_validator body "start_date" ∨
   rejects str_validator body "end_date" ∨
   rejects str_validator body "image_url" ∨
   rejects dict_validator body "package_details" →
   post body w = (Raise RequestValidationError, w) ∧
   status_of RequestValidationError = 422%Z) ∧
  (∀ r w', post body w = (Ok r, w') →
     Forall (λ k, is_Some (body !! k)) TourCreate_keys).
Proof.
  unfold post_tours, TourCreate_parse. split.
  - intros H. split; [|done].
    repeat match goal with
           | |- context [required ?v body ?k] =>
               let E := fresh "E" in
               destruct (required v body k) eqn:E; cbn; [|done]
           end.
    repeat match type of H with
           | _ ∨ _ => destruct H as [H|H]
           end; apply required_None in H; congruence.
  - intros r w'.
    repeat match goal with
           | |- context [required ?v body ?k] =>
               let E := fresh "E" in
               destruct (required v body k) eqn:E; cbn; [|done];
               apply required_Some in E
           end.
    intros _. unfold TourCreate_keys. by repeat constructor.
Qed.

(** C10. An update body is refused as a whole (422, the world as it
    was), or the write fails and the collection is as it was, or the Tour
    is updated so that [id] and [created_at] keep their value whatever keys
    the body holds, every field the body gives as [null] keeps its value,
    and no document of the collection holds [None] under any key. *)
Theorem put_null_and_frozen_fields (body : gmap string json) (w : world)
    (ts : list Tour.t) (i : nat) (x : Tour.t) :
  stores w ts →
  NoDup (ids ts) →
  ts !! i = Some x →
  put (Tour.id x) body w = (Raise RequestValidationError, w) ∨
  (∃ e w', put (Tour.id x) body w = (Raise e, w') ∧ tours w' = tours w) ∨
  ∃ x' w',
    put (Tour.id x) body w = (Ok x', w') ∧
    stores w' (<[i := x']> ts) ∧
    Tour.id x' = Tour.id x ∧
    Tour.created_at x' = Tour.created_at x ∧
    (body !! "title" = Some JNull → Tour.title x' = Tour.title x) ∧
    (body !! "description" = Some JNull →
       Tour.description x' = Tour.description x) ∧
    (body !! "destination" = Some JNull →
       Tour.destination x' = Tour.destination x) ∧
    (body !! "duration" = Some JNull → Tour.duration x' = Tour.duration x) ∧
    (body !! "price" = Some JNull → Tour.price x' = Tour.price x) ∧
    (body !! "max_capacity" = Some JNull →
       Tour.max_capacity x' = Tour.max_capacity x) ∧
    (body !! "available_spots" = Some JNull →
       Tour.available_spots x' = Tour.available_spots x) ∧
    (body !! "start_date" = Some JNull →
       Tour.start_date x' = Tour.start_date x) ∧
    (body !! "end_date" = Some JNull → Tour.end_date x' = Tour.end_date x) ∧
    (body !! "image_url" = Some JNull →
       Tour.image_url x' = Tour.image_url x) ∧
    (body !! "package_details" = Some JNull →
       Tour.package_details x' = Tour.package_details x) ∧
    (∀ d k, d ∈ tours w' → d !! k ≠ Some VNone).
Proof.
  intros Hst Hnd Hx. unfold put_tour.
  destruct (TourUpdate_parse _ _ _ _ body) as [u|] eqn:Hu; [right|by left].
  rewrite (update_tour_run u w ts i x Hst Hnd Hx).
  destruct (store_refuses w _) as [e|]; [left; by exists e, (tick w)|].
  destruct (update_fits u); [right|left; by exists OverflowError, (tick w)].
  destruct (parse_update_null body u Hu)
    as (N1 & N2 & N3 & N4 & N5 & N6 & N7 & N8 & N9 & N10 & N11).
  eexists (patched u (millis (clock w 0)) x), _.
  split; [reflexivity|]. split; [reflexivity|]. split; [done|]. split; [done|].
  cbn [patched Tour.title Tour.description Tour.destination Tour.duration
       Tour.price Tour.max_capacity Tour.available_spots Tour.start_date
       Tour.end_date Tour.image_url Tour.package_details].
  repeat (split; [intros Hn;
    first [by rewrite (N1 Hn) | by rewrite (N2 Hn) | by rewrite (N3 Hn)
          | by rewrite (N4 Hn) | by rewrite (N5 Hn) | by rewrite (N6 Hn)
          | by rewrite (N7 Hn) | by rewrite (N8 Hn) | by rewrite (N9 Hn)
          | by rewrite (N10 Hn) | by rewrite (N11 Hn)]|]).
  intros d k Hd. cbn [tours set_tours] in Hd.
  apply list_elem_of_fmap in Hd as (y & -> & _). apply dict_no_None.
Qed.

End RequestProofs.

Lemma create_rejects_invalid_witness :
  post_tours exact_str exact_int exact_float exact_dict untitled_body agency =
  (Raise RequestValidationError, agency).
Proof.
  apply (create_rejects_invalid exact_str exact_int exact_float exact_dict
           untitled_body agency).
  left. left. reflexivity.
Defined.

Lemma put_null_and_frozen_fields_witness :
  ∃ x' w',
    put_tour exact_str exact_int exact_float exact_dict "t1" null_title_body
      agency = (Ok x', w') ∧
    Tour.id x' = "t1"%string ∧
    Tour.title x' = "Bali Trip"%string.
Proof.
  destruct (put_null_and_frozen_fields exact_str exact_int exact_float
              exact_dict null_title_body agency [bali] 0 bali)
    as [H|[(e & w' & H & _)|(x' & w' & H1 & _ & H3 & _ & H5 & _)]].
  - reflexivity.
  - apply NoDup_singleton.
  - reflexivity.
  - vm_compute in H. discriminate H.
  - vm_compute in H. discriminate H.
  - exists x', w'. split; [exact H1|]. split; [exact H3|].
    apply H5. reflexivity.
Defined.

(** * Further properties *)

(** ** Reading documents back *)

Lemma field_other {A} (rd : value → option A) dflt (d : doc) k v key :
  k ≠ key → field rd dflt (<[k := v]> d) key = field rd dflt d key.
Proof. intros Hne. unfold field. by rewrite lookup_insert_ne. Qed.

Lemma tnew_other (d : doc) k v :
  k ∉ Tour_keys → Tour.new (<[k := v]> d) = Tour.new d.
Proof.
  intros Hk. unfold Tour.new.
  rewrite !field_other; [done|intros ->; apply Hk; unfold Tour_keys; by repeat constructor..].
Qed.

(** X1. A stored document of a Tour reads back as that Tour, without
    drawing a uuid or reading the clock, also when the store has added a
    key of its own (such as [_id]) that is no field of the model. *)
Theorem tour_document_round_trip (x : Tour.t) (k : string) (v : value) (w : world) :
  k ∉ Tour_keys →
  Tour.new (Tour.dict x) w = (Ok x, w) ∧
  Tour.new (<[k := v]> (Tour.dict x)) w = (Ok x, w).
Proof.
  intros Hk. split; [apply tnew_dict|]. rewrite tnew_other by done. apply tnew_dict.
Qed.

Lemma tour_document_round_trip_witness :
  Tour.new (<["_id" := VStr "65a0"]> (Tour.dict bali)) agency = (Ok bali, agency).
Proof.
  apply (tour_document_round_trip bali "_id" (VStr "65a0") agency).
  unfold Tour_keys. intros H.
  repeat (apply elem_of_cons in H as [H|H]; [discriminate H|]).
  by apply elem_of_nil in H.
Defined.

(** X2. A document that lacks a required field is refused with a
    validation error before anything is drawn from the world; a document
    that lacks [id] is not refused: it reads back with an id drawn from the
    uuid source. *)
Theorem tour_document_missing_key (x : Tour.t) (k : string) (w : world) :
  k ∈ TourCreate_keys →
  Tour.new (delete k (Tour.dict x)) w = (Raise ValidationError, w) ∧
  Tour.new (delete "id" (Tour.dict x)) w =
    (Ok (Tour.mk (uuid_src w 0) (Tour.title x) (Tour.description x)
           (Tour.destination x) (Tour.duration x) (Tour.price x)
           (Tour.max_capacity x) (Tour.available_spots x) (Tour.start_date x)
           (Tour.end_date x) (Tour.image_url x) (Tour.package_details x)
           (Tour.created_at x) (Tour.updated_at x)),
     World (tours w) (λ n, uuid_src w (S n)) (clock w) (pcre_other w)
       (store_refuses w)).
Proof.
  intros Hk. destruct x. split; [|reflexivity].
  unfold TourCreate_keys in Hk.
  repeat (apply elem_of_cons in Hk as [->|Hk]; [reflexivity|]).
  by apply elem_of_nil in Hk.
Qed.

Lemma tour_document_missing_key_witness :
  Tour.new (delete "price" (Tour.dict bali)) agency = (Raise ValidationError, agency).
Proof.
  apply (tour_document_missing_key bali "price" agency).
  unfold TourCreate_keys. by repeat constructor.
Defined.

(** ** Handlers that only read *)

Lemma keeps_ret {A} (a : A) : keeps_tours (ret a).
Proof. by intros w. Qed.

Lemma keeps_raise {A} e : keeps_tours (@raise A e).
Proof. by intros w. Qed.

Lemma keeps_bind {A B} (m : M A) (k : A → M B) :
  keeps_tours m → (∀ a, keeps_tours (k a)) → keeps_tours (bind m k).
Proof.
  intros Hm Hk w. unfold bind. specialize (Hm w).
  destruct (m w) as [[a|e] w1]; cbn in *; [|done].
  by rewrite (Hk a w1).
Qed.

Lemma keeps_field {A} (rd : value → option A) dflt (d : doc) k :
  (∀ f, dflt = Some f → keeps_tours f) → keeps_tours (field rd dflt d k).
Proof.
  intros Hd. unfold field. destruct (d !! k) as [v|].
  - destruct (rd v); [apply keeps_ret|apply keeps_raise].
  - destruct dflt as [f|]; [by apply Hd|apply keeps_raise].
Qed.

Lemma keeps_new (d : doc) : keeps_tours (Tour.new d).
Proof.
  unfold Tour.new.
  repeat (apply keeps_bind;
    [apply keeps_field; intros f [= <-] || intros f [=]; by intros w|intros ?]).
  apply keeps_ret.
Qed.

Lemma keeps_list_comp (l : list doc) : keeps_tours (list_comp Tour.new l).
Proof.
  induction l as [|d l IH]; [apply keeps_ret|]. cbn [list_comp].
  apply keeps_bind; [apply keeps_new|intros x].
  apply keeps_bind; [exact IH|intros xs]. apply keeps_ret.
Qed.

Lemma keeps_matcher q : keeps_tours (matcher q).
Proof. intros w. unfold matcher. by destruct (compile_query w q). Qed.

(** X3. The handlers that read (List, GetById, the root route) never
    change the collection, whatever documents it holds and whatever they
    answer. *)
Theorem reads_keep_collection (search destination : option string)
    (tour_id : string) (w : world) :
  tours (get_tours search destination w).2 = tours w ∧
  tours (get_tour tour_id w).2 = tours w ∧
  tours (root w).2 = tours w.
Proof.
  split; [|split; [|done]].
  - apply (keeps_bind (find _ 1000)); [|intros l; apply keeps_list_comp].
    apply keeps_bind; [apply keeps_matcher|by intros f w'].
  - apply (keeps_bind (find_one _)).
    + apply keeps_bind; [apply keeps_matcher|by intros f w'].
    + intros [d|]; cbn [falsy_doc]; [|apply keeps_raise].
      destruct (size d =? 0); [apply keeps_raise|apply keeps_new].
Qed.

(** X4. On a collection of Tours, GetById answers with the first stored
    Tour that has the id, or with 404 when there is none, and leaves the
    world as it was. *)
Theorem get_tour_first_match (tour_id : string) (w : world) (ts : list Tour.t) :
  stores w ts →
  get_tour tour_id w =
  match List.find (has_id tour_id) ts with
  | Some x => (Ok x, w)
  | None => (Raise (HTTPException 404 "Tour not found"), w)
  end.
Proof. apply get_tour_stores. Qed.

Lemma get_tour_first_match_witness :
  get_tour "t1" agency = (Ok bali, agency).
Proof. exact (get_tour_first_match "t1" agency [bali] eq_refl). Defined.

(** ** Create without a uniqueness check *)

(** X5. Create, on every input and every collection, well-formed or not,
    either appends exactly one document, the new record as the store keeps
    it, and touches no document that was there, or fails and leaves the
    collection as it was; it fails exactly when the store refuses the
    document or an integer of the input is beyond 64 bits. *)
Theorem create_tour_appends_or_fails (tour_data : TourCreate.t) (w : world) :
  (store_refuses w
     (Tour.dict (new_tour (uuid_src w 0) tour_data (clock w 0) (clock w 1))) =
     None ∧
   input_fits tour_data = true ∧
   ∃ r w',
     create_tour tour_data w = (Ok r, w') ∧
     Tour.id r = uuid_src w 0 ∧
     input_of r = tour_data ∧
     tours w' = tours w ++ [Tour.dict (as_stored r)]) ∨
  ((store_refuses w
      (Tour.dict (new_tour (uuid_src w 0) tour_data (clock w 0) (clock w 1))) ≠
      None ∨
    input_fits tour_data = false) ∧
   ∃ e w', create_tour tour_data w = (Raise e, w') ∧ tours w' = tours w).
Proof.
  rewrite create_tour_run.
  destruct (store_refuses w _) as [e|].
  { right. split; [by left|]. by exists e, (drawn w). }
  destruct (input_fits tour_data).
  - left. split; [done|]. split; [done|]. eexists _, _.
    split; [reflexivity|]. split; [done|]. split; [by destruct tour_data|done].
  - right. split; [by right|]. by exists OverflowError, (drawn w).
Qed.

(** X6. Create does not check the id it drew: when a stored Tour already
    has it and the write succeeds, the new record is stored all the same
    under the taken id, and GetById on that id keeps answering with the
    older Tour. *)
Theorem create_tour_collision (tour_data : TourCreate.t) (w : world)
    (ts : list Tour.t) (x : Tour.t) :
  stores w ts →
  List.find (has_id (uuid_src w 0)) ts = Some x →
  input_fits tour_data = true →
  store_refuses w
    (Tour.dict (new_tour (uuid_src w 0) tour_data (clock w 0) (clock w 1))) =
    None →
  ∃ r w',
    create_tour tour_data w = (Ok r, w') ∧
    stores w' (ts ++ [as_stored r]) ∧
    Tour.id r = Tour.id x ∧
    ¬ NoDup (ids (ts ++ [as_stored r])) ∧
    get_tour (Tour.id r) w' = (Ok x, w').
Proof.
  intros Hst Hx Hfits Hacc. rewrite create_tour_run, Hacc, Hfits.
  set (r := new_tour (uuid_src w 0) tour_data (clock w 0) (clock w 1)).
  assert (Hst' : stores (set_tours (tours w ++ [Tour.dict (as_stored r)]) (drawn w))
                   (ts ++ [as_stored r])).
  { unfold stores in *. cbn. by rewrite Hst, fmap_app. }
  pose proof (find_some _ _ Hx) as [Hin Hid].
  apply has_id_true in Hid. apply list_elem_of_In in Hin.
  eexists r, _. split; [reflexivity|].
  split; [exact Hst'|]. split; [done|]. split.
  - unfold ids. rewrite fmap_app. intros Hnd. apply NoDup_app in Hnd as (_ & Hd & _).
    apply (Hd (Tour.id x)).
    + apply list_elem_of_fmap. eauto.
    + rewrite Hid. by apply list_elem_of_singleton.
  - rewrite (get_tour_stores _ _ _ Hst'). cbn [Tour.id r new_tour].
    by rewrite (find_app_Some _ _ _ _ Hx).
Qed.

Lemma create_tour_collision_witness :
  ∃ r w',
    create_tour (input_of bali)
      (World [Tour.dict bali] (λ _, "t1"%string) (λ _, 300%Z) (λ _, None)
         (λ _, None)) =
      (Ok r, w') ∧
    get_tour (Tour.id r) w' = (Ok bali, w').
Proof.
  destruct (create_tour_collision (input_of bali)
              (World [Tour.dict bali] (λ _, "t1"%string) (λ _, 300%Z)
                 (λ _, None) (λ _, None))
              [bali] bali)
    as (r & w' & H1 & _ & _ & _ & H5).
  - reflexivity.
  - reflexivity.
  - reflexivity.
  - reflexivity.
  - exists r, w'. exact (conj H1 H5).
Defined.

(** ** Delete and Update, step by step *)

Lemma delete_first_none (f : doc → bool) (l : list doc) :
  existsb f l = false → delete_first f l = l.
Proof.
  induction l as [|d l IH]; [done|]. cbn.
  intros [Hd Hl]%orb_false_iff. by rewrite Hd, IH.
Qed.

Lemma delete_first_split (f : doc → bool) (l : list doc) :
  existsb f l = true →
  ∃ l1 d l2, l = l1 ++ d :: l2 ∧ Forall (λ d', f d' = false) l1 ∧
             f d = true ∧ delete_first f l = l1 ++ l2.
Proof.
  induction l as [|a l IH]; [done|]. cbn. destruct (f a) eqn:Ha.
  - intros _. by exists [], a, l.
  - cbn. intros (l1 & d & l2 & -> & Hl1 & Hd & E)%IH.
    exists (a :: l1), d, l2. rewrite E. by repeat split; [constructor|..].
Qed.

Lemma existsb_Forall_false {A} (f : A → bool) (l : list A) :
  existsb f l = false → Forall (λ a, f a = false) l.
Proof.
  induction l as [|a l IH]; [by constructor|]. cbn.
  intros [Ha Hl]%orb_false_iff. constructor; eauto.
Qed.

(** X7. Delete removes exactly the first document that has the id and
    nothing else, whatever the collection holds; when no document has the
    id it answers 404 and leaves the world as it was. *)
Theorem delete_tour_removes_first (tour_id : string) (w : world) :
  (Forall (λ d, by_id tour_id d = false) (tours w) ∧
   delete_tour tour_id w = (Raise (HTTPException 404 "Tour not found"), w)) ∨
  (∃ l1 d l2 w',
     tours w = l1 ++ d :: l2 ∧
     Forall (λ d', by_id tour_id d' = false) l1 ∧
     by_id tour_id d = true ∧
     delete_tour tour_id w =
       (Ok {["message" := "Tour deleted successfully"]}, w') ∧
     tours w' = l1 ++ l2).
Proof.
  unfold delete_tour. erewrite bind_ok by apply delete_one_id.
  destruct (existsb (by_id tour_id) (tours w)) eqn:E.
  - right. destruct (delete_first_split _ _ E) as (l1 & d & l2 & Hl & H1 & Hd & Hdel).
    exists l1, d, l2. eexists.
    split; [done|]. split; [done|]. split; [done|]. split; [reflexivity|].
    exact Hdel.
  - left. split; [by apply existsb_Forall_false|].
    rewrite delete_first_none by done. cbn. by rewrite set_tours_id.
Qed.

(** X8. Delete is not idempotent: on a collection with distinct ids, a
    second Delete of the same id answers 404 and changes nothing. *)
Theorem delete_twice (w : world) (ts : list Tour.t) (i : nat) (x : Tour.t) :
  stores w ts →
  NoDup (ids ts) →
  ts !! i = Some x →
  ∃ w1,
    delete_tour (Tour.id x) w =
      (Ok {["message" := "Tour deleted successfully"]}, w1) ∧
    delete_tour (Tour.id x) w1 =
      (Raise (HTTPException 404 "Tour not found"), w1).
Proof.
  intros Hst Hnd Hx. eexists. split; [by eapply delete_tour_present|].
  eapply delete_tour_absent; [reflexivity|]. by eapply ids_delete_absent.
Qed.

Lemma delete_twice_witness :
  ∃ w1,
    delete_tour "t1" agency =
      (Ok {["message" := "Tour deleted successfully"]}, w1) ∧
    delete_tour "t1" w1 = (Raise (HTTPException 404 "Tour not found"), w1).
Proof.
  apply (delete_twice agency [bali] 0 bali).
  - reflexivity.
  - apply NoDup_singleton.
  - reflexivity.
Defined.

Lemma patched_twice (u : TourUpdate.t) n1 n2 (x : Tour.t) :
  patched u n2 (patched u n1 x) = patched u n2 x.
Proof.
  destruct u, x. unfold patched. cbn.
  f_equal; match goal with |- default _ ?o = _ => by destruct o end.
Qed.

(** X9. Repeating an Update with the same payload is harmless: when both
    writes succeed, the second call returns the record the first call
    produced, but for [updated_at], which is the later clock reading in
    whole milliseconds. *)
Theorem update_twice (tour_data : TourUpdate.t) (w : world) (ts : list Tour.t)
    (i : nat) (x : Tour.t) :
  stores w ts →
  NoDup (ids ts) →
  ts !! i = Some x →
  update_fits tour_data = true →
  store_refuses w (update_doc tour_data (clock w 0)) = None →
  store_refuses w (update_doc tour_data (clock w 1)) = None →
  ∃ w1 w2,
    update_tour (Tour.id x) tour_data w =
      (Ok (patched tour_data (millis (clock w 0)) x), w1) ∧
    update_tour (Tour.id x) tour_data w1 =
      (Ok (patched tour_data (millis (clock w 1)) x), w2) ∧
    stores w2 (<[i := patched tour_data (millis (clock w 1)) x]> ts).
Proof.
  intros Hst Hnd Hx Hfits Hacc0 Hacc1.
  set (x1 := patched tour_data (millis (clock w 0)) x).
  assert (Hx1 : <[i := x1]> ts !! i = Some x1).
  { apply list_lookup_insert_eq. by apply lookup_lt_Some in Hx. }
  assert (Hnd1 : NoDup (ids (<[i := x1]> ts))).
  { by rewrite (ids_insert_same _ _ x x1). }
  eexists _, _. split.
  { rewrite (update_tour_run tour_data w ts i x Hst Hnd Hx).
    rewrite Hacc0, Hfits. reflexivity. }
  change (Tour.id x) with (Tour.id x1).
  rewrite (update_tour_run tour_data _ (<[i := x1]> ts) i x1); [|done..].
  cbn [clock tick set_tours store_refuses]. rewrite Hacc1, Hfits.
  unfold x1. rewrite patched_twice, list_insert_insert_eq.
  split; reflexivity.
Qed.

Lemma update_twice_witness :
  ∃ w1 w2,
    update_tour "t1" price_only agency = (Ok (patched price_only 200000 bali), w1) ∧
    update_tour "t1" price_only w1 = (Ok (patched price_only 200000 bali), w2) ∧
    stores w2 [patched price_only 200000 bali].
Proof.
  apply (update_twice price_only agency [bali] 0 bali).
  - reflexivity.
  - apply NoDup_singleton.
  - reflexivity.
  - reflexivity.
  - reflexivity.
  - reflexivity.
Defined.

(** ** An invariant of the running service *)

(** X10. Started on an empty collection with a uuid source that never
    repeats, the service keeps, through any sequence of requests to its
    five tour handlers and whatever it answers, a collection of well-formed
    Tour documents with pairwise distinct ids. *)
Theorem ids_stay_distinct (rs : list request) (w : world) :
  tours w = [] →
  never_repeats w →
  ∃ ts, stores (serve_all rs w) ts ∧ NoDup (ids ts).
Proof.
  intros Hempty Hinj.
  destruct (serve_all_keeps rs w (empty_sound w Hempty) Hinj)
    as [(ts & Hst & Hnd & _) _].
  eauto.
Qed.

Lemma ids_stay_distinct_witness :
  ∃ ts,
    stores (serve_all [ReqCreate (input_of bali); ReqDelete "0";
                       ReqCreate (input_of bali)] opening) ts ∧
    NoDup (ids ts).
Proof.
  apply (ids_stay_distinct _ opening).
  - reflexivity.
  - intros m n H. cbn in H. by apply (inj pretty) in H.
Defined.

(** ** More on listing *)

Lemma lower_empty x : lower x = EmptyString → x = EmptyString.
Proof. by destruct x. Qed.

Lemma re_search_lower X Y s :
  lower X = lower Y → re_search (lits X) s = re_search (lits Y) s.
Proof.
  intros E. apply eq_true_iff_eq. rewrite !re_search_lits.
  unfold contains_ci. by rewrite E.
Qed.

Lemma filter_all {A} (l : list A) : List.filter (λ _, true) l = l.
Proof. induction l as [|a l IH]; [done|]. cbn. by rewrite IH. Qed.

Lemma filter_sublist {A} (f : A → bool) (l : list A) :
  List.filter f l `sublist_of` l.
Proof.
  induction l as [|a l IH]; [constructor|]. cbn.
  destruct (f a); by constructor.
Qed.

(** X11. List with only [destination=D], for a printable ASCII [D] without
    metacharacters, returns the first 1000, in store order, of the Tours a
    selector picks; a Tour whose destination is printable ASCII is picked
    exactly when its destination contains [D] as a case-insensitive
    substring, whatever its title and description. *)
Theorem list_destination (w : world) (ts : list Tour.t) (D : string) :
  stores w ts →
  plain D →
  ∃ sel,
    get_tours None (Some D) w = (Ok (take 1000 (List.filter sel ts)), w) ∧
    ∀ x, printable_str (Tour.destination x) = true →
         (sel x = true ↔ contains_ci D (Tour.destination x)).
Proof.
  intros Hst Hp. rewrite (get_tours_selector w ts _ _ Hst). unfold selector.
  destruct (decide (D = EmptyString)) as [->|HD].
  - exists (λ _, true). split; [reflexivity|].
    intros x _. split; [|done]. intros _. apply contains_ci_empty.
  - exists (hit_destination (interpreted w D (lits D))). split.
    + rewrite (truthy_str_Some D HD). cbn. rewrite (regex_i_plain w D Hp). cbn.
      reflexivity.
    + intros x Hx. unfold hit_destination.
      rewrite (interpreted_printable _ _ _ _ Hx). apply re_search_lits.
Qed.

Lemma list_destination_witness :
  ∃ sel,
    get_tours None (Some "indo"%string) agency =
      (Ok (take 1000 (List.filter sel [bali])), agency) ∧
    ∀ x, printable_str (Tour.destination x) = true →
         (sel x = true ↔ contains_ci "indo" (Tour.destination x)).
Proof. exact (list_destination agency [bali] "indo" eq_refl eq_refl). Defined.

Lemma interpreted_lower w X Y s :
  printable_str s = true → lower X = lower Y →
  interpreted w X (lits X) s = interpreted w Y (lits Y) s.
Proof.
  intros Hs E. rewrite !(interpreted_printable _ _ _ _ Hs).
  by apply re_search_lower.
Qed.

Lemma filter_pointwise_on {A} (P : A → Prop) (f g : A → bool) (l : list A) :
  Forall P l → (∀ a, P a → f a = g a) → List.filter f l = List.filter g l.
Proof.
  intros Hl E. induction Hl as [|a l Ha _ IH]; [done|].
  cbn. by rewrite (E a Ha), IH.
Qed.

Lemma selector_search_case w X Y d :
  plain X → plain Y → lower X = lower Y →
  match selector w (Some X) d, selector w (Some Y) d with
  | Some f, Some g => ∀ x, printable_fields x = true → f x = g x
  | None, None => True
  | _, _ => False
  end.
Proof.
  intros HX HY E. unfold selector.
  destruct (decide (X = EmptyString)) as [->|HXe].
  - symmetry in E. apply lower_empty in E as ->. cbn.
    by destruct (if truthy_str d then _ else _).
  - assert (HYe : Y ≠ EmptyString).
    { intros ->. by apply lower_empty in E. }
    rewrite (truthy_str_Some X HXe), (truthy_str_Some Y HYe). cbn.
    rewrite (regex_i_plain w X HX), (regex_i_plain w Y HY). cbn.
    destruct (if truthy_str d then _ else _); cbn; [|done].
    intros x Hx. unfold printable_fields in Hx.
    apply andb_true_iff in Hx as [[H1 H2]%andb_true_iff H3].
    unfold hit_any. by rewrite !(interpreted_lower w X Y) by done.
Qed.

Lemma selector_destination_case w X Y s :
  plain X → plain Y → lower X = lower Y →
  match selector w s (Some X), selector w s (Some Y) with
  | Some f, Some g => ∀ x, printable_fields x = true → f x = g x
  | None, None => True
  | _, _ => False
  end.
Proof.
  intros HX HY E. unfold selector.
  destruct (decide (X = EmptyString)) as [->|HXe].
  - symmetry in E. apply lower_empty in E as ->.
    by destruct (if truthy_str s then _ else _).
  - assert (HYe : Y ≠ EmptyString).
    { intros ->. by apply lower_empty in E. }
    rewrite (truthy_str_Some X HXe), (truthy_str_Some Y HYe).
    change (default EmptyString (Some X)) with X.
    change (default EmptyString (Some Y)) with Y.
    rewrite (regex_i_plain w X HX), (regex_i_plain w Y HY).
    destruct (if truthy_str s then _ else _); cbn; [|done].
    intros x Hx. unfold printable_fields in Hx.
    apply andb_true_iff in Hx as [_ H3].
    unfold hit_destination. by rewrite (interpreted_lower w X Y) by done.
Qed.

(** X12. The two filters ignore the case of ASCII letters: on a collection
    whose Tours have printable ASCII titles, descriptions and destinations,
    two printable ASCII filter strings without metacharacters that differ
    only in the case of their letters give the same List answer, as
    [search] and as [destination]. *)
Theorem filters_ignore_case (w : world) (ts : list Tour.t) (X Y : string)
    (search destination : option string) :
  stores w ts →
  Forall (λ x, printable_fields x = true) ts →
  plain X →
  plain Y →
  lower X = lower Y →
  get_tours (Some X) destination w = get_tours (Some Y) destination w ∧
  get_tours search (Some X) w = get_tours search (Some Y) w.
Proof.
  intros Hst Hpr HX HY E. rewrite !(get_tours_selector w ts _ _ Hst). split.
  - pose proof (selector_search_case w X Y destination HX HY E) as H.
    destruct (selector w (Some X) destination), (selector w (Some Y) destination);
      try done. by rewrite (filter_pointwise_on _ _ _ ts Hpr H).
  - pose proof (selector_destination_case w X Y search HX HY E) as H.
    destruct (selector w search (Some X)), (selector w search (Some Y));
      try done. by rewrite (filter_pointwise_on _ _ _ ts Hpr H).
Qed.

Lemma filters_ignore_case_witness :
  get_tours (Some "BALI"%string) None agency =
  get_tours (Some "bali"%string) None agency.
Proof.
  apply (filters_ignore_case agency [bali] "BALI" "bali" None None);
    [reflexivity|by repeat constructor|reflexivity..].
Defined.

(** X13. Whatever the filters, List answers with stored Tours only, each
    at most as often as it is stored, and in store order. *)
Theorem list_in_store_order (w w' : world) (ts l : list Tour.t)
    (search destination : option string) :
  stores w ts →
  get_tours search destination w = (Ok l, w') →
  l `sublist_of` ts.
Proof.
  intros Hst. rewrite (get_tours_selector w ts _ _ Hst).
  destruct (selector w search destination) as [f|]; [|done].
  intros [= <- _]. etrans; [apply sublist_take|apply filter_sublist].
Qed.

Lemma list_in_store_order_witness :
  get_tours (Some "bali"%string) None agency = (Ok [bali], agency) ∧
  [bali] `sublist_of` [bali].
Proof.
  split; [reflexivity|].
  apply (list_in_store_order agency agency [bali] [bali] (Some "bali"%string) None);
    reflexivity.
Defined.

(** X14. A Tour that has just been created is found, as the store keeps
    it, by searching for any printable ASCII string without metacharacters
    that one of its printable ASCII title, description or destination
    contains, whatever the case of the letters, provided the write
    succeeded and fewer than 1000 Tours were stored before it. *)
Theorem created_tour_is_found (tour_data : TourCreate.t) (w : world)
    (ts : list Tour.t) (X : string) :
  stores w ts →
  length ts < 1000 →
  input_fits tour_data = true →
  store_refuses w
    (Tour.dict (new_tour (uuid_src w 0) tour_data (clock w 0) (clock w 1))) =
    None →
  plain X →
  (printable_str (TourCreate.title tour_data) = true ∧
   contains_ci X (TourCreate.title tour_data)) ∨
  (printable_str (TourCreate.description tour_data) = true ∧
   contains_ci X (TourCreate.description tour_data)) ∨
  (printable_str (TourCreate.destination tour_data) = true ∧
   contains_ci X (TourCreate.destination tour_data)) →
  ∃ r w' l,
    create_tour tour_data w = (Ok r, w') ∧
    get_tours (Some X) None w' = (Ok l, w') ∧
    as_stored r ∈ l.
Proof.
  intros Hst Hlen Hfits Hacc Hp Hm. rewrite create_tour_run, Hacc, Hfits.
  set (r := new_tour (uuid_src w 0) tour_data (clock w 0) (clock w 1)).
  pose (w' := set_tours (tours w ++ [Tour.dict (as_stored r)]) (drawn w)).
  assert (Hst' : stores w' (ts ++ [as_stored r])).
  { unfold stores in *. cbn. by rewrite Hst, fmap_app. }
  assert (Hsel : ∃ sel,
    get_tours (Some X) None w' =
      (Ok (take 1000 (List.filter sel (ts ++ [as_stored r]))), w') ∧
    sel (as_stored r) = true).
  { rewrite (get_tours_selector w' _ _ _ Hst'). unfold selector.
    destruct (decide (X = EmptyString)) as [->|HX].
    - by exists (λ _, true).
    - rewrite (truthy_str_Some X HX). cbn. rewrite (regex_i_plain w' X Hp).
      cbn. eexists. split; [reflexivity|]. cbn beta.
      rewrite andb_true_r. unfold hit_any.
      destruct tour_data; cbn in Hm |- *.
      destruct Hm as [[Hs Hc]|[[Hs Hc]|[Hs Hc]]];
        rewrite (interpreted_printable _ _ _ _ Hs);
        apply re_search_lits in Hc; rewrite Hc;
        by rewrite ?orb_true_r. }
  destruct Hsel as (sel & Hget & Hr).
  exists r, w'. eexists. split; [reflexivity|]. split; [exact Hget|].
  rewrite take_ge.
  - apply elem_of_filter_bool. split; [|exact Hr].
    apply elem_of_app. right. by apply list_elem_of_singleton.
  - etrans; [apply filter_length_le|]. rewrite length_app. cbn. lia.
Qed.

Lemma created_tour_is_found_witness :
  ∃ r w' l,
    create_tour (input_of bali) agency = (Ok r, w') ∧
    get_tours (Some "trip"%string) None w' = (Ok l, w') ∧
    as_stored r ∈ l.
Proof.
  apply (created_tour_is_found (input_of bali) agency [bali] "trip").
  - reflexivity.
  - cbn. lia.
  - reflexivity.
  - reflexivity.
  - reflexivity.
  - left. split; [reflexivity|]. by exists "bali "%string, EmptyString.
Defined.

(** X15. On a collection of Tours, List leaves the world as it was and
    fails in one way only: with the store's error, exactly when a non-empty
    filter string is a pattern the store rejects. *)
Theorem list_fails_on_rejected_pattern (w : world) (ts : list Tour.t)
    (search destination : option string) (p : string) :
  stores w ts →
  ((∃ l, get_tours search destination w = (Ok l, w)) ∨
   get_tours search destination w = (Raise OperationFailure, w)) ∧
  (p ≠ EmptyString → regex_i w p = None →
     get_tours (Some p) destination w = (Raise OperationFailure, w) ∧
     get_tours search (Some p) w = (Raise OperationFailure, w)) ∧
  (get_tours search destination w = (Raise OperationFailure, w) →
     ∃ q, (search = Some q ∨ destination = Some q) ∧
          q ≠ EmptyString ∧ regex_i w q = None).
Proof.
  intros Hst. rewrite !(get_tours_selector w ts _ _ Hst). split; [|split].
  - destruct (selector w search destination); eauto.
  - intros Hp Hr. unfold selector. rewrite (truthy_str_Some p Hp).
    change (default EmptyString (Some p)) with p. rewrite Hr. cbn. split; [done|].
    by destruct (if truthy_str search then _ else _).
  - unfold selector.
    destruct search as [s|], destination as [d|]; cbn;
      repeat match goal with
             | |- context [String.eqb ?s EmptyString] =>
                 destruct (String.eqb_spec s EmptyString); cbn
             | |- context [regex_i w ?s] =>
                 let E := fresh "E" in destruct (regex_i w s) eqn:E; cbn
             end; try done; intros _; eauto 6.
Qed.

Lemma list_fails_on_rejected_pattern_witness :
  get_tours (Some "("%string) None agency = (Raise OperationFailure, agency).
Proof.
  apply (list_fails_on_rejected_pattern agency [bali] None None "(").
  - reflexivity.
  - discriminate.
  - reflexivity.
Defined.

Lemma list_comp_poisoned (ts : list Tour.t) (bad : doc) (rest : list doc) w e :
  Tour.new bad w = (Raise e, w) →
  list_comp Tour.new ((Tour.dict <$> ts) ++ bad :: rest) w = (Raise e, w).
Proof.
  intros Hbad. induction ts as [|x ts IH]; cbn [fmap list_fmap app list_comp].
  - by rewrite (bind_raise _ _ _ _ _ Hbad).
  - rewrite (bind_ok _ _ _ _ _ (tnew_dict x w)).
    by rewrite (bind_raise _ _ _ _ _ IH).
Qed.

(** X16. One malformed document spoils the unfiltered List: when a
    document that lacks a required field follows fewer than 1000
    well-formed ones, List with no filters fails with a validation error
    and returns none of the Tours. *)
Theorem list_poisoned_by_malformed (w : world) (ts : list Tour.t) (x : Tour.t)
    (k : string) (rest : list doc) :
  tours w = (Tour.dict <$> ts) ++ delete k (Tour.dict x) :: rest →
  length ts < 1000 →
  k ∈ TourCreate_keys →
  get_tours None None w = (Raise ValidationError, w).
Proof.
  intros Hw Hlen Hk.
  assert (Hbad : Tour.new (delete k (Tour.dict x)) w = (Raise ValidationError, w)).
  { destruct x. unfold TourCreate_keys in Hk.
    repeat (apply elem_of_cons in Hk as [->|Hk]; [reflexivity|]).
    by apply elem_of_nil in Hk. }
  unfold get_tours. cbn [truthy_str]. unfold find.
  erewrite bind_ok; [|erewrite bind_ok by reflexivity; reflexivity].
  rewrite Hw. cbn [forallb].
  rewrite (filter_all (A:=doc)).
  rewrite take_app_ge by (rewrite length_fmap; lia).
  rewrite length_fmap.
  destruct (1000 - length ts) as [|n] eqn:E; [lia|]. cbn [take].
  by apply list_comp_poisoned.
Qed.

Lemma list_poisoned_by_malformed_witness :
  get_tours None None
    (World [Tour.dict bali; delete "price" (Tour.dict bali)] (λ n, pretty n)
       (λ _, 0%Z) (λ _, None) (λ _, None)) =
  (Raise ValidationError,
   World [Tour.dict bali; delete "price" (Tour.dict bali)] (λ n, pretty n)
       (λ _, 0%Z) (λ _, None) (λ _, None)).
Proof.
  apply (list_poisoned_by_malformed _ [bali] bali "price" []).
  - reflexivity.
  - cbn. lia.
  - unfold TourCreate_keys. by repeat constructor.
Defined.

(** ** More on request bodies *)

Lemma required_other {A} (v : json → option A) (body : gmap string json) k j key :
  k ≠ key → required v (<[k := j]> body) key = required v body key.
Proof. intros Hne. unfold required. by rewrite lookup_insert_ne. Qed.

Lemma optional_other {A} (v : json → option A) (body : gmap string json) k j key :
  k ≠ key → optional v (<[k := j]> body) key = optional v body key.
Proof. intros Hne. unfold optional. by rewrite lookup_insert_ne. Qed.

Section MoreRequestProofs.

Variable str_validator : json → option string.
Variable int_validator : json → option Z.
Variable float_validator : json → option float.
Variable dict_validator : json → option (list (string * json)).

(** X17. A key that is no field of the model is ignored: adding it to a
    body, with any value, changes neither what Create does with the body
    nor what Update does. *)
Theorem unknown_key_is_ignored (body : gmap string json) (k : string) (j : json)
    (tour_id : string) (w : world) :
  k ∉ TourCreate_keys →
  post_tours str_validator int_validator float_validator dict_validator
    (<[k := j]> body) w =
  post_tours str_validator int_validator float_validator dict_validator
    body w ∧
  put_tour str_validator int_validator float_validator dict_validator
    tour_id (<[k := j]> body) w =
  put_tour str_validator int_validator float_validator dict_validator
    tour_id body w.
Proof.
  intros Hk.
  assert (Hne : ∀ key, key ∈ TourCreate_keys → k ≠ key) by (by intros key Hin ->).
  unfold post_tours, put_tour, TourCreate_parse, TourUpdate_parse.
  rewrite !required_other, !optional_other;
    [done|apply Hne; unfold TourCreate_keys; by repeat constructor..].
Qed.

(** X18. A client cannot choose the id or the timestamps of the Tour it
    creates: whatever the body holds, a successful Create answers with the
    id drawn from the uuid source and the two clock readings, and appends
    that record, as the store keeps it, to the collection. *)
Theorem post_tours_draws_id (body : gmap string json) (w w' : world) (r : Tour.t) :
  post_tours str_validator int_validator float_validator dict_validator
    body w = (Ok r, w') →
  Tour.id r = uuid_src w 0 ∧
  Tour.created_at r = clock w 0 ∧
  Tour.updated_at r = clock w 1 ∧
  tours w' = tours w ++ [Tour.dict (as_stored r)].
Proof.
  unfold post_tours.
  destruct (TourCreate_parse _ _ _ _ body) as [td|]; [|done].
  rewrite create_tour_run.
  destruct (store_refuses w _); [done|].
  destruct (input_fits td); [|done].
  intros [= <- <-]. done.
Qed.

End MoreRequestProofs.

Lemma unknown_key_is_ignored_witness :
  post_tours exact_str exact_int exact_float exact_dict
    (<["_id" := JStr "x"]> bali_body) agency =
  post_tours exact_str exact_int exact_float exact_dict bali_body agency.
Proof.
  apply (unknown_key_is_ignored exact_str exact_int exact_float exact_dict
           bali_body "_id" (JStr "x") "t1" agency).
  unfold TourCreate_keys. intros H.
  repeat (apply elem_of_cons in H as [H|H]; [discriminate H|]).
  by apply elem_of_nil in H.
Defined.

Lemma post_tours_draws_id_witness :
  ∃ r w',
    post_tours exact_str exact_int exact_float exact_dict bali_body agency =
      (Ok r, w') ∧
    Tour.id r = "0"%string.
Proof.
  eexists _, _. split; [reflexivity|].
  eapply (post_tours_draws_id exact_str exact_int exact_float exact_dict
            bali_body agency).
  reflexivity.
Defined.
